(** * Retail SQL assistant: guardrails, rewriter, model race and repair pipeline

    A shallow embedding of
      - [retail_ai/domain/guardrails.py]   (validator, rewriter, scorer, known-error repair),
      - [retail_ai/adapters/llm_openrouter.py] (retrying provider call, race, winner selection),
      - [retail_ai/services/query_service.py]  (the [run_query] orchestration),
      - [retail_ai/settings.py]            (block list, allow lists, schema columns),
    and the properties of these functions.

    Text is modelled as [list ascii].  For code points below 128 the character
    classes below coincide with Python's [str.isspace], [str.lower], and the
    [\w], [\s] classes of [re]; bytes from 128 up are treated as opaque
    characters that are neither word characters nor white space. *)

From Stdlib Require Import Ascii String.
From Stdlib Require DecimalString.
From Stdlib Require Import List Sorted Bool Arith Lia ZArith.
Import ListNotations.

Set Implicit Arguments.

(** ** Text and character classes *)

Definition text := list ascii.

(** A string literal as text. *)
Definition L (s : string) : text := list_ascii_of_string s.

Definition code (c : ascii) : nat := nat_of_ascii c.

Definition between (lo hi : nat) (c : ascii) : bool :=
  (lo <=? code c) && (code c <=? hi).

(** [str.isspace] on ASCII: TAB, LF, VT, FF, CR, FS, GS, RS, US and SPACE. *)
Definition is_space (c : ascii) : bool :=
  between 9 13 c || between 28 32 c.

Definition is_upper (c : ascii) : bool := between 65 90 c.
Definition is_lower (c : ascii) : bool := between 97 122 c.
Definition is_digit (c : ascii) : bool := between 48 57 c.
Definition is_alpha (c : ascii) : bool := is_upper c || is_lower c.

(** The [\w] class of [re]. *)
Definition is_word (c : ascii) : bool :=
  is_alpha c || is_digit c || (code c =? 95).

Definition lower_char (c : ascii) : ascii :=
  if is_upper c then ascii_of_nat (code c + 32) else c.

(** [str.lower] *)
Definition lower (s : text) : text := map lower_char s.

Definition ascii_eqb (a b : ascii) : bool := Ascii.eqb a b.

Fixpoint text_eqb (a b : text) : bool :=
  match a, b with
  | [], [] => true
  | x :: a', y :: b' => ascii_eqb x y && text_eqb a' b'
  | _, _ => false
  end.

(** [str.startswith] *)
Fixpoint startswith (p s : text) : bool :=
  match p, s with
  | [], _ => true
  | x :: p', y :: s' => ascii_eqb x y && startswith p' s'
  | _ :: _, [] => false
  end.

(** [str.endswith] *)
Definition endswith (p s : text) : bool := startswith (rev p) (rev s).

(** [p in s] for strings. *)
Fixpoint contains (p s : text) : bool :=
  startswith p s ||
  match s with
  | [] => false
  | _ :: s' => contains p s'
  end.

(** [str.lstrip], [str.rstrip], [str.strip] with no argument. *)
Fixpoint lstrip (s : text) : text :=
  match s with
  | c :: s' => if is_space c then lstrip s' else s
  | [] => []
  end.

Definition rstrip (s : text) : text := rev (lstrip (rev s)).

Definition strip (s : text) : text := rstrip (lstrip s).

(** [s[:-1]] *)
Definition drop_last (s : text) : text := removelast s.

(** [sep.join(parts)] *)
Fixpoint join (sep : text) (parts : list text) : text :=
  match parts with
  | [] => []
  | [p] => p
  | p :: rest => p ++ sep ++ join sep rest
  end.

(** Code-point order on strings, as [<] of [str]. *)
Fixpoint text_ltb (a b : text) : bool :=
  match a, b with
  | [], [] => false
  | [], _ :: _ => true
  | _ :: _, [] => false
  | x :: a', y :: b' =>
      if code x <? code y then true
      else if code y <? code x then false
      else text_ltb a' b'
  end.

(** ** Regular expressions with the backtracking semantics of [re]

    A matcher state is a zipper over the subject: the characters already
    passed (most recent first) and the characters still ahead.  [run r st]
    is the list of all states in which a match of [r] started at [st] can end,
    in the order in which the backtracking matcher of [re] tries them; the
    match that [re] reports is the head of that list.  Capture groups are
    recorded as the text each group consumed. *)

Inductive re : Type :=
| Eps                         (* the empty pattern *)
| Chr (p : ascii -> bool)     (* one character of a class *)
| Seq (a b : re)              (* ab *)
| Alt (a b : re)              (* a|b *)
| Star (a : re)               (* a*   greedy *)
| Lazy (a : re)               (* a*?  non-greedy *)
| WordB                       (* \b *)
| Group (n : nat) (a : re).   (* the n-th capture group *)

Record mstate : Type := MState {
  before : text;              (* reversed prefix already passed *)
  ahead : text;               (* remaining subject *)
  caps : list (nat * text)    (* capture groups, last binding first *)
}.

Definition head_word (s : text) : bool :=
  match s with
  | c :: _ => is_word c
  | [] => false
  end.

Definition at_boundary (st : mstate) : bool :=
  xorb (head_word (before st)) (head_word (ahead st)).

(** The text passed between two states of one run. *)
Definition consumed (st st' : mstate) : text :=
  firstn (length (ahead st) - length (ahead st')) (ahead st).

Definition progress (st st' : mstate) : bool :=
  length (ahead st') <? length (ahead st).

Fixpoint run (r : re) (st : mstate) : list mstate :=
  match r with
  | Eps => [st]
  | Chr p =>
      match ahead st with
      | c :: rest => if p c then [MState (c :: before st) rest (caps st)] else []
      | [] => []
      end
  | Seq a b => flat_map (run b) (run a st)
  | Alt a b => run a st ++ run b st
  | Star a =>
      (fix loop (fuel : nat) (st : mstate) : list mstate :=
         match fuel with
         | 0 => [st]
         | S fuel' =>
             flat_map (fun st' => if progress st st' then loop fuel' st' else [])
                      (run a st) ++ [st]
         end) (length (ahead st)) st
  | Lazy a =>
      (fix loop (fuel : nat) (st : mstate) : list mstate :=
         match fuel with
         | 0 => [st]
         | S fuel' =>
             st :: flat_map (fun st' => if progress st st' then loop fuel' st' else [])
                            (run a st)
         end) (length (ahead st)) st
  | WordB => if at_boundary st then [st] else []
  | Group n a =>
      map (fun st' => MState (before st') (ahead st') ((n, consumed st st') :: caps st'))
          (run a st)
  end.

(** The match [re] reports at a given position, if any. *)
Definition match_here (r : re) (bef ah : text) : option mstate :=
  match run r (MState bef ah []) with
  | st :: _ => Some st
  | [] => None
  end.

(** A match object: where it starts and ends in the subject, the matched
    text and the groups. *)
Record rmatch : Type := RMatch {
  m_start : nat;
  m_end : nat;
  m_text : text;
  m_caps : list (nat * text)
}.

Fixpoint lookup_cap (n : nat) (cs : list (nat * text)) : option text :=
  match cs with
  | [] => None
  | (k, v) :: cs' => if k =? n then Some v else lookup_cap n cs'
  end.

(** [m.group(n)] for a group that took part in the match. *)
Definition group (n : nat) (m : rmatch) : text :=
  match lookup_cap n (m_caps m) with
  | Some v => v
  | None => []
  end.

(** [re.search]: the first position, from the left, at which the pattern
    matches.  [bef] is the reversed text to the left of the scan position. *)
Fixpoint search_from (r : re) (bef ah : text) : option rmatch :=
  match match_here r bef ah with
  | Some st =>
      Some (RMatch (length bef) (length (before st))
                   (firstn (length ah - length (ahead st)) ah) (caps st))
  | None =>
      match ah with
      | [] => None
      | c :: ah' => search_from r (c :: bef) ah'
      end
  end.

Definition search (r : re) (s : text) : option rmatch := search_from r [] s.

Definition found (r : re) (s : text) : bool :=
  match search r s with
  | Some _ => true
  | None => false
  end.

(** [re.finditer]: the non-overlapping matches, scanning from the left.
    After a match the scan resumes where the match ended; [skip] counts the
    characters of the current match still to pass. *)
Fixpoint finditer_from (r : re) (skip : nat) (bef ah : text) : list rmatch :=
  match skip with
  | S k =>
      match ah with
      | c :: ah' => finditer_from r k (c :: bef) ah'
      | [] => []
      end
  | 0 =>
      match match_here r bef ah with
      | Some st =>
          let n := length ah - length (ahead st) in
          RMatch (length bef) (length (before st)) (firstn n ah) (caps st) ::
          match ah with
          | c :: ah' => finditer_from r (pred n) (c :: bef) ah'
          | [] => []
          end
      | None =>
          match ah with
          | c :: ah' => finditer_from r 0 (c :: bef) ah'
          | [] => []
          end
      end
  end.

Definition finditer (r : re) (s : text) : list rmatch := finditer_from r 0 [] s.

(** [re.sub] with a replacement that holds no backslash (so that the
    replacement template is the literal text). *)
Fixpoint sub_from (r : re) (repl : text) (skip : nat) (bef ah : text) : text :=
  match skip with
  | S k =>
      match ah with
      | c :: ah' => sub_from r repl k (c :: bef) ah'
      | [] => []
      end
  | 0 =>
      match match_here r bef ah with
      | Some st =>
          let n := length ah - length (ahead st) in
          repl ++
          match ah with
          | c :: ah' =>
              match n with
              | 0 => c :: sub_from r repl 0 (c :: bef) ah'
              | S k => sub_from r repl k (c :: bef) ah'
              end
          | [] => []
          end
      | None =>
          match ah with
          | c :: ah' => c :: sub_from r repl 0 (c :: bef) ah'
          | [] => []
          end
      end
  end.

Definition sub (r : re) (repl s : text) : text := sub_from r repl 0 [] s.

(** *** Pattern combinators, named after the [re] syntax they stand for *)

Definition is_chr (x : ascii) : ascii -> bool := fun c => ascii_eqb c x.
(** a literal character under [re.I] *)
Definition ci_chr (x : ascii) : ascii -> bool :=
  fun c => ascii_eqb (lower_char c) (lower_char x).
Definition not_chr (x : ascii) : ascii -> bool := fun c => negb (ascii_eqb c x).
Definition any_chr : ascii -> bool := fun _ => true.

Fixpoint seqs (rs : list re) : re :=
  match rs with
  | [] => Eps
  | [r] => r
  | r :: rs' => Seq r (seqs rs')
  end.

Fixpoint alts (rs : list re) : re :=
  match rs with
  | [] => Eps
  | [r] => r
  | r :: rs' => Alt r (alts rs')
  end.

(** a literal, as produced by [re.escape] *)
Definition lit (s : text) : re := seqs (map (fun x => Chr (is_chr x)) s).
(** a literal under [re.I] *)
Definition lit_ci (s : text) : re := seqs (map (fun x => Chr (ci_chr x)) s).

Definition opt (r : re) : re := Alt r Eps.          (* r? *)
Definition plus (r : re) : re := Seq r (Star r).    (* r+ *)
Definition ws : re := Chr is_space.                 (* \s *)
Definition ws_star : re := Star ws.                 (* \s* *)
Definition ws_plus : re := plus ws.                 (* \s+ *)
Definition dot_all : re := Chr any_chr.             (* . under re.S *)

Definition underscore : ascii := "_"%char.

(** [[a-z][a-z0-9_]*] *)
Definition ident_lower : re :=
  Seq (Chr is_lower)
      (Star (Chr (fun c => is_lower c || is_digit c || ascii_eqb c underscore))).

(** [[a-zA-Z][a-zA-Z0-9_]*] *)
Definition ident_alpha : re :=
  Seq (Chr is_alpha)
      (Star (Chr (fun c => is_alpha c || is_digit c || ascii_eqb c underscore))).

(** [\bword\b] *)
Definition whole_word (r : re) : re := seqs [WordB; r; WordB].

(** ** settings.py *)

Module settings.

Definition BAD_KEYWORDS : list text :=
  map L ["update"; "delete"; "insert"; "alter"; "drop";
         "grant"; "revoke"; "truncate"; "create"; "copy";
         "call"; "execute"; "prepare"; "deallocate"; "explain";
         "vacuum"; "analyze"; "listen"; "notify";
         ";--"]%string.

Definition ALLOW_VIEWS : list text := map L ["v_sales_daily"; "v_promos_active"]%string.
Definition ALLOW_TABLES : list text :=
  map L ["stores"; "brands"; "products"; "promotions"; "sales_transactions"]%string.

Definition COLUMNS : list (text * list text) :=
  [ (L "v_sales_daily",
     map L ["date"; "promo_week_start_wed"; "store_id"; "article_no"; "product_name";
            "brand"; "category"; "sub_category"; "regular_price"; "order_multiple";
            "base_demand"; "is_high_velocity"; "units_sold"; "sale_price"; "is_promo";
            "discount_pct"; "promo_channel"; "has_endcap"; "on_promo_bay"; "price_ratio"]%string);
    (L "v_promos_active",
     map L ["promo_id"; "article_no"; "store_id"; "start_date"; "end_date"; "active_date";
            "offer_type"; "discount_pct"; "promo_channel"; "has_endcap"; "on_promo_bay";
            "brand"; "category"; "sub_category"]%string);
    (L "sales_transactions",
     map L ["date"; "store_id"; "article_no"; "units_sold"; "sale_price"; "is_promo";
            "promo_id"]%string);
    (L "stores",
     map L ["store_id"; "store_name"; "region"; "store_type"; "opening_date";
            "store_area_sqm"]%string);
    (L "brands", map L ["brand"; "category"; "sub_category"; "promo_allowed"]%string);
    (L "products",
     map L ["article_no"; "product_name"; "brand"; "category"; "sub_category";
            "regular_price"; "order_multiple"; "base_demand"; "is_high_velocity"]%string);
    (L "promotions",
     map L ["promo_id"; "article_no"; "store_id"; "start_date"; "end_date"; "offer_type";
            "discount_pct"; "promo_channel"; "has_endcap"; "on_promo_bay"; "brand";
            "category"; "sub_category"]%string) ].

(** A configured model: its id and its prices per token in millionths of a
    dollar (the source gives dollars per thousand tokens). *)
Record model : Type := Model { id : text; price_in : Z; price_out : Z }.

Definition MODELS : list model :=
  [ Model (L "nousresearch/hermes-4-405b") 2 8;
    Model (L "deepseek/deepseek-chat-v3.1:free") 0 0;
    Model (L "x-ai/grok-code-fast-1") 2 15;
    Model (L "deepseek/deepseek-chat-v3.1") 2 8;
    Model (L "qwen/qwen3-coder") 2 8;
    Model (L "google/gemini-2.5-flash") 3 25;
    Model (L "openai/gpt-4.1-mini") 4 16;
    Model (L "tencent/hunyuan-a13b-instruct:free") 0 0 ].

End settings.

(** ** Dictionaries keyed by text, as association lists: the binding found
    first is the one set last. *)

Fixpoint dict_get {A : Type} (k : text) (d : list (text * A)) : option A :=
  match d with
  | [] => None
  | (k', v) :: d' => if text_eqb k' k then Some v else dict_get k d'
  end.

Definition dict_set {A : Type} (k : text) (v : A) (d : list (text * A)) : list (text * A) :=
  (k, v) :: d.

Definition mem (x : text) (l : list text) : bool := existsb (text_eqb x) l.

(** [sorted(set(l))]: the distinct elements of [l] in increasing order. *)
Fixpoint insert_sorted (x : text) (l : list text) : list text :=
  match l with
  | [] => [x]
  | y :: l' =>
      if text_ltb x y then x :: l
      else if text_ltb y x then y :: insert_sorted x l'
      else l
  end.

Definition sorted_set (l : list text) : list text :=
  fold_right insert_sorted [] l.

(** [str(n)] for a natural number. *)
Definition str_of_nat (n : nat) : text :=
  L (DecimalString.NilZero.string_of_uint (Nat.to_uint n)).

(** ** domain/guardrails.py *)

Module gr.

Definition quote : ascii := "'"%char.
Definition semicolon : text := L ";".

Definition fence_re : re :=
  seqs [lit_ci (L "```sql"); Group 1 (Lazy dot_all); lit_ci (L "```")].

Definition select_rest_re : re :=
  seqs [WordB; lit_ci (L "select"); WordB; Star dot_all].

Definition extract_sql (t : text) : option text :=
  match search fence_re t with
  | Some m => Some (strip (group 1 m))
  | None =>
      match search select_rest_re t with
      | Some m2 => Some (strip (m_text m2))
      | None => None
      end
  end.

Definition looks_select_only (sql : text) : bool :=
  let s := strip sql in
  let s := if endswith semicolon s then rstrip (drop_last s) else s in
  let low := lower s in
  if negb (startswith (L "select") low || startswith (L "with") low) then false
  else if contains semicolon s then false
  else true.

(** [str.isalpha] *)
Definition isalpha (s : text) : bool :=
  match s with
  | [] => false
  | _ => forallb is_alpha s
  end.

Definition bad_word_re : re :=
  let word_keywords := filter isalpha settings.BAD_KEYWORDS in
  seqs [WordB; Group 1 (alts (map lit word_keywords)); WordB].

Definition contains_bad (sql : text) : bool :=
  let s := lower sql in
  if contains (L ";--") s then true
  else if found bad_word_re s then true
  else if found (whole_word (lit (L "copy"))) s then true
  else false.

Definition allowed_objects : list text := settings.ALLOW_VIEWS ++ settings.ALLOW_TABLES.

Definition mentions_allowed_objects (sql : text) : bool :=
  let s := lower sql in
  let patterns := map (fun name => whole_word (lit (lower name))) allowed_objects in
  existsb (fun p => found p s) patterns.

(** [\b<obj>\b\s+(?:as\s+)?(IDENT)] with IDENT = [[a-z][a-z0-9_]*] *)
Definition alias_re (obj : text) : re :=
  seqs [WordB; lit (lower obj); WordB; ws_plus;
        opt (Seq (lit (L "as")) ws_plus); Group 1 ident_lower].

(** [\b(IDENT)\.(\*|IDENT)\b] with IDENT = [[a-z][a-z0-9_]*] *)
Definition colref_re : re :=
  seqs [WordB; Group 1 ident_lower; Chr (is_chr "."%char);
        Group 2 (Alt (Chr (is_chr "*"%char)) ident_lower); WordB].

(** The alias map built by the first loop of [columns_exist]. *)
Definition alias_map (low : text) : list (text * text) :=
  fold_left
    (fun alias_of obj =>
       fold_left (fun alias_of m => dict_set (group 1 m) obj alias_of)
                 (finditer (alias_re obj) low) alias_of)
    allowed_objects [].

(** What one [alias.column] reference adds to [bad_refs]. *)
Definition check_ref (alias_of : list (text * text)) (m : rmatch) : list text :=
  let alias := group 1 m in
  let col := group 2 m in
  match dict_get alias alias_of with
  | None => [L "Undefined alias '" ++ alias ++ L "'"]
  | Some obj =>
      if text_eqb col (L "*") then []
      else
        let known :=
          map lower (match dict_get obj settings.COLUMNS with Some cs => cs | None => [] end) in
        if negb (mem col known)
        then [alias ++ L "." ++ col ++ L " not in " ++ obj]
        else []
  end.

(** The list [bad_refs] at the end of the second loop. *)
Definition bad_refs (sql : text) : list text :=
  let low := lower sql in
  let alias_of := alias_map low in
  flat_map (check_ref alias_of) (finditer colref_re low).

Definition columns_exist (sql : text) : bool * option text :=
  match bad_refs sql with
  | [] => (true, None)
  | refs => (false, Some (join (L "; ") (sorted_set refs)))
  end.

(** [\bstore_id\s*=\s*'[^']*'] *)
Definition store_pred_re : re :=
  seqs [WordB; lit (L "store_id"); ws_star; Chr (is_chr "="%char); ws_star;
        Chr (is_chr quote); Star (Chr (not_chr quote)); Chr (is_chr quote)].

(** [\bfrom\s+<obj>\s+(?:as\s+)?(IDENT)] with IDENT = [[a-zA-Z][a-zA-Z0-9_]*] *)
Definition from_alias_re (obj : text) : re :=
  seqs [WordB; lit (L "from"); ws_plus; lit obj; ws_plus;
        opt (Seq (lit (L "as")) ws_plus); Group 1 ident_alpha].

Definition where_re : re := whole_word (lit (L "where")).

(** [\b(group\s+by|having|order\s+by|limit)\b] *)
Definition tail_kw_re : re :=
  seqs [WordB;
        Group 1 (alts [seqs [lit (L "group"); ws_plus; lit (L "by")];
                       lit (L "having");
                       seqs [lit (L "order"); ws_plus; lit (L "by")];
                       lit (L "limit")]);
        WordB].

(** [s.startswith((" ", "\n", "\t"))] and the same for [endswith] *)
Definition blanks : list text := [L " "; ["010"%char]; ["009"%char]].
Definition startswith_any (ps : list text) (s : text) : bool :=
  existsb (fun p => startswith p s) ps.
Definition endswith_any (ps : list text) (s : text) : bool :=
  existsb (fun p => endswith p s) ps.

Definition ensure_store_filter (sql store_id : text) : text :=
  let original := sql in
  let s_low := lower sql in
  if found store_pred_re s_low then original
  else
    let m :=
      match search (from_alias_re (L "v_sales_daily")) s_low with
      | Some m => Some m
      | None => search (from_alias_re (L "sales_transactions")) s_low
      end in
    let pred :=
      match m with
      | Some m => group 1 m ++ L ".store_id = '" ++ store_id ++ L "'"
      | None => L "store_id = '" ++ store_id ++ L "'"
      end in
    match search where_re s_low with
    | Some where_match =>
        let insert_pos := m_end where_match in
        let tail := skipn insert_pos original in
        let prefix := firstn insert_pos original in
        let sep := if startswith_any blanks tail then [] else L " " in
        prefix ++ (sep ++ pred ++ L " AND (") ++ lstrip tail ++ L ")"
    | None =>
        match search tail_kw_re s_low with
        | Some tail_kw =>
            let i := m_start tail_kw in
            let spacer := if endswith_any blanks (firstn i original) then [] else L " " in
            firstn i original ++ (spacer ++ L "WHERE " ++ pred ++ L " ") ++ skipn i original
        | None =>
            let sep := if endswith_any blanks original then [] else L " " in
            original ++ (sep ++ L "WHERE " ++ pred)
        end
    end.

Definition limit_re : re := whole_word (lit_ci (L "limit")).

(** [\bgroup\s+by\b|\bsum\s*\(|\bavg\s*\(|\bcount\s*\(|\bmax\s*\(|\bmin\s*\(] *)
Definition aggregate_re : re :=
  let call name := seqs [WordB; lit_ci (L name); ws_star; Chr (is_chr "("%char)] in
  alts [seqs [WordB; lit_ci (L "group"); ws_plus; lit_ci (L "by"); WordB];
        call "sum"%string; call "avg"%string; call "count"%string;
        call "max"%string; call "min"%string].

Definition ensure_limit_with (sql : text) (default_limit : nat) : text :=
  let s := rstrip sql in
  if found limit_re s then s
  else if found aggregate_re s then s
  else
    let s := if endswith semicolon s then rstrip (drop_last s) else s in
    s ++ L " LIMIT " ++ str_of_nat default_limit.

Definition ensure_limit (sql : text) : text := ensure_limit_with sql 200.

Definition current_date_re : re := whole_word (lit_ci (L "current_date")).
Definition now_re : re := seqs [WordB; lit_ci (L "now()")].
Definition current_timestamp_re : re := whole_word (lit_ci (L "current_timestamp")).
(** [\bcurrent_timestamp\s*::\s*date\b] *)
Definition current_timestamp_date_re : re :=
  seqs [WordB; lit_ci (L "current_timestamp"); ws_star; lit_ci (L "::"); ws_star;
        lit_ci (L "date"); WordB].
(** [date_trunc\(\s*'day'\s*,\s*now\(\)\s*\)] *)
Definition date_trunc_re : re :=
  seqs [lit_ci (L "date_trunc("); ws_star; lit_ci (L "'day'"); ws_star;
        lit_ci (L ","); ws_star; lit_ci (L "now()"); ws_star; lit_ci (L ")")].

(** The five substitutions of [replace_current_date], in order. *)
Definition anchor_subs (base_date : text) : list (re * text) :=
  let as_date := L "'" ++ base_date ++ L "'::date" in
  let as_timestamp := L "'" ++ base_date ++ L "'::timestamp" in
  [ (current_date_re, as_date);
    (now_re, as_timestamp);
    (current_timestamp_re, as_timestamp);
    (current_timestamp_date_re, as_date);
    (date_trunc_re, as_timestamp) ].

Definition apply_subs (subs : list (re * text)) (s : text) : text :=
  fold_left (fun s p => sub (fst p) (snd p) s) subs s.

(** [None] is Python's [None]; an absent anchor is [None] or the empty
    string ([not base_date]). *)
Definition replace_current_date (sql : text) (base_date : option text) : option text :=
  match base_date with
  | None => Some sql
  | Some [] => Some sql
  | Some d =>
      let s := apply_subs (anchor_subs d) sql in
      if negb (text_eqb s sql) then Some s else None
  end.

Definition or_empty (o : option text) : text :=
  match o with
  | Some t => t
  | None => []
  end.

Definition nonempty (t : text) : bool :=
  match t with
  | [] => false
  | _ => true
  end.

Definition int_of_bool (b : bool) : nat := if b then 1 else 0.

Definition grounding_score (answer : text) : nat :=
  let sql := or_empty (extract_sql answer) in
  let has_sql := nonempty sql in
  let ok_shape := if nonempty sql then looks_select_only sql else false in
  let mentions := if nonempty sql then mentions_allowed_objects sql else false in
  int_of_bool has_sql + int_of_bool ok_shape + int_of_bool mentions.

(** [\bv_promos_active\b.*\bpa\b] under [re.I | re.S] *)
Definition promos_pa_re : re :=
  seqs [WordB; lit_ci (L "v_promos_active"); WordB; Star dot_all;
        WordB; lit_ci (L "pa"); WordB].
(** [\bcount\s*\(\s*distinct\s*s\.promo_id\s*\)] *)
Definition count_distinct_re : re :=
  seqs [WordB; lit_ci (L "count"); ws_star; lit_ci (L "("); ws_star;
        lit_ci (L "distinct"); ws_star; lit_ci (L "s.promo_id"); ws_star; lit_ci (L ")")].
Definition p_brand_re : re := whole_word (lit_ci (L "p.brand")).
(** [\bv_sales_daily\b.*\bs\b] under [re.I | re.S] *)
Definition sales_s_re : re :=
  seqs [WordB; lit_ci (L "v_sales_daily"); WordB; Star dot_all;
        WordB; lit_ci (L "s"); WordB].

Definition repair_known_errors (sql db_error_text : text) : option text :=
  let s := sql in
  let err := lower db_error_text in
  let s :=
    if contains (L "column s.promo_id does not exist") err && found promos_pa_re s
    then
      let s2 := sub count_distinct_re (L "COUNT(DISTINCT pa.promo_id)") s in
      if negb (text_eqb s2 s) then s2 else s
    else s in
  let s :=
    if found p_brand_re s && found sales_s_re s
    then
      let s2 := sub p_brand_re (L "s.brand") s in
      if negb (text_eqb s2 s) then s2 else s
    else s in
  if negb (text_eqb s sql) then Some s else None.

End gr.


(** ** adapters/llm_openrouter.py *)

Module llm.

(** What [data["choices"][0]["message"]["content"]] finds in the JSON body
    of a completion: nothing (a key or index of the path is missing), a
    string, or a value that is no string (JSON [null]). *)
Inductive content_field : Type :=
| Missing
| NotText
| Text (t : text).

(** The JSON body of a successful completion, reduced to what [_call_model]
    reads: the message content and the two usage counters
    ([usage.get(...) or 0]). *)
Record response : Type := Response {
  content : content_field;
  prompt_tokens : Z;
  completion_tokens : Z
}.

(** What one [client.post] followed by [raise_for_status] and [r.json()]
    can do. *)
Inductive attempt : Type :=
| Responded (data : response)
| TransportError (e : text)      (* httpx.HTTPError and its subclasses *)
| OtherError (e : text).         (* any exception the handler does not name *)

(** A provider, as seen by one call: the outcome of its i-th request and the
    wall-clock time the whole call takes. *)
Record provider : Type := Provider {
  post : nat -> attempt;
  elapsed_ms : Z
}.

Inductive result (A : Type) : Type :=
| Returned (a : A)
| Raised (e : text).
Arguments Returned {A} a.
Arguments Raised {A} e.

(** The back-off delays, in milliseconds. *)
Definition backoffs : list nat := [400; 800; 1600].

(** The retry loop of [call_openrouter_sync] from request [i] on, with the
    delays still unused; it also reports the number of requests made and the
    delays slept. *)
Fixpoint retry_loop (p : provider) (i : nat) (left : list nat)
  : result response * nat * list nat :=
  match post p i with
  | Responded data => (Returned data, 1, [])
  | TransportError e =>
      match left with
      | b :: left' =>
          let '(r, n, slept) := retry_loop p (S i) left' in
          (r, S n, b :: slept)
      | [] => (Raised e, 1, [])
      end
  | OtherError e => (Raised e, 1, [])
  end.

Definition call_openrouter_sync_log (p : provider) : result response * nat * list nat :=
  retry_loop p 0 backoffs.

Definition call_openrouter_sync (p : provider) : result response :=
  fst (fst (call_openrouter_sync_log p)).

(** Number of requests one call makes. *)
Definition requests_made (p : provider) : nat :=
  snd (fst (call_openrouter_sync_log p)).

(** The dictionary returned by [_call_model]; cost in millionths of a
    dollar.  [r_text] is [None] for Python's [None]: the subscript
    [data[...]["content"]] does not look at the value it finds. *)
Record reply : Type := Reply {
  r_model : text;
  r_text : option text;
  r_latency_ms : Z;
  r_cost_usd : Z
}.

Definition _call_model (m : settings.model) (p : provider) : result reply :=
  match call_openrouter_sync p with
  | Raised e => Raised e
  | Returned data =>
      let pin := (prompt_tokens data * settings.price_in m)%Z in
      let pout := (completion_tokens data * settings.price_out m)%Z in
      match content data with
      | Missing => Raised (L "KeyError")
      | NotText => Returned (Reply (settings.id m) None (elapsed_ms p) (pin + pout)%Z)
      | Text t => Returned (Reply (settings.id m) (Some t) (elapsed_ms p) (pin + pout)%Z)
      end
  end.

(** A reply with its grounding score. *)
Record trial : Type := Trial {
  model : text;
  text_ : text;
  latency_ms : Z;
  cost_usd : Z;
  score : nat
}.

(** [r["score"] = grounding_score(r["text"])]: on a text that is no string
    [re.search] raises [TypeError]. *)
Definition score_reply (r : reply) : result trial :=
  match r_text r with
  | Some t =>
      Returned (Trial (r_model r) t (r_latency_ms r) (r_cost_usd r) (gr.grounding_score t))
  | None => Raised (L "TypeError")
  end.

(** The scoring loop of [try_models]: it ends at the first reply that
    cannot be scored. *)
Fixpoint score_all (replies : list reply) : result (list trial) :=
  match replies with
  | [] => Returned []
  | r :: rest =>
      match score_reply r with
      | Raised e => Raised e
      | Returned t =>
          match score_all rest with
          | Returned l => Returned (t :: l)
          | Raised e => Raised e
          end
      end
  end.

(** [asyncio.gather] without [return_exceptions]: the results in task order
    when every task returns, otherwise an exception of a failed task (with
    several failures the model reports the first in task order; which one
    Python reports depends on timing). *)
Fixpoint gather {A : Type} (tasks : list (result A)) : result (list A) :=
  match tasks with
  | [] => Returned []
  | Raised e :: _ => Raised e
  | Returned a :: rest =>
      match gather rest with
      | Returned l => Returned (a :: l)
      | Raised e => Raised e
      end
  end.

(** Sort keys are triples compared lexicographically, as Python tuples. *)
Definition key := (Z * Z * Z)%type.

Definition key_ltb (a b : key) : bool :=
  let '(a1, a2, a3) := a in
  let '(b1, b2, b3) := b in
  if (a1 <? b1)%Z then true
  else if (b1 <? a1)%Z then false
  else if (a2 <? b2)%Z then true
  else if (b2 <? a2)%Z then false
  else (a3 <? b3)%Z.

Definition sort_key (pref : text) (x : trial) : key :=
  if text_eqb pref (L "fastest")
  then ((- Z.of_nat (score x))%Z, latency_ms x, cost_usd x)
  else ((- Z.of_nat (score x))%Z, cost_usd x, latency_ms x).

(** [sorted(l, key=k)]: the stable sort, here by insertion. *)
Fixpoint insert_by {A : Type} (k : A -> key) (x : A) (l : list A) : list A :=
  match l with
  | [] => [x]
  | y :: l' => if key_ltb (k y) (k x) then y :: insert_by k x l' else x :: l
  end.

Definition sorted_by {A : Type} (k : A -> key) (l : list A) : list A :=
  fold_right (insert_by k) [] l.

(** [sorted(results, key=sort_key)[0]]; [None] is the [IndexError] on an
    empty list. *)
Definition pick_winner (pref : text) (results : list trial) : option trial :=
  match sorted_by (sort_key pref) results with
  | w :: _ => Some w
  | [] => None
  end.

(** [try_models] over the configured models, each paired with the behaviour
    of its provider during this race. *)
Definition try_models (race : list (settings.model * provider)) (pref : text)
  : result (trial * list trial) :=
  match gather (map (fun mp => _call_model (fst mp) (snd mp)) race) with
  | Raised e => Raised e
  | Returned replies =>
      match score_all replies with
      | Raised e => Raised e
      | Returned results =>
          match pick_winner pref results with
          | Some winner => Returned (winner, results)
          | None => Raised (L "IndexError")
          end
      end
  end.

End llm.

(** ** services/query_service.py *)

Module qs.

Import llm.

Record message : Type := Message { role : text; content : text }.

Definition row := list text.
Definition table := (list text * list row)%type.   (* columns, rows *)

Record payload : Type := Payload {
  p_user_id : text;
  p_store_id : text;
  p_question : text;
  p_chosen_model : text;
  p_latency_ms : Z;
  p_cost_usd : Z;
  p_trials : list trial
}.

Record QueryResult : Type := MkQueryResult {
  sql : text;
  df : table;
  trials : list trial;
  winner : trial;
  data_end_date : option text
}.

(** What [run_query] does to the outside, in order. *)
Inductive event : Type :=
| Race (messages : list message)          (* one call of [llm.try_models] *)
| KnownRepair (sql err : text)            (* one call of [gr.repair_known_errors] *)
| Exec (sql : text)                       (* one call of [dbx.run_sql] *)
| Logged (p : payload).                   (* one call of [dbx.log_run] *)

Definition nl : text := ["010"%char].

(** The three checks the repair branches apply to a candidate. *)
Definition passes_three (s : text) : bool :=
  gr.looks_select_only s && negb (gr.contains_bad s) && gr.mentions_allowed_objects s.

(** The four guardrail stages, as applied to the winner's candidate. *)
Definition validator (s : text) : bool :=
  gr.nonempty s && passes_three s && fst (gr.columns_exist s).

(** The three rewrites in the order [run_query] applies them; a [None] or
    empty result of the third keeps the previous text. *)
Definition rewrite (s store_id : text) (data_end_date : option text) : text :=
  let safe_sql := gr.ensure_store_filter s store_id in
  let safe_sql := gr.ensure_limit safe_sql in
  match gr.replace_current_date safe_sql data_end_date with
  | Some replaced => if gr.nonempty replaced then replaced else safe_sql
  | None => safe_sql
  end.

Section World.

(** The outside world: the state of the database, the providers and the
    clock, and the collaborators that read and change it. *)
Variable W : Type.
Variable build_messages : text -> text -> list message.
(** How each configured provider behaves during the race for some messages. *)
Variable providers : list message -> W -> list (settings.model * provider) * W.
(** [dbx.run_sql]: the table, or the text of the exception. *)
Variable run_sql : text -> W -> result table * W.
Variable get_data_end_date : text -> W -> option text * W.
(** [dbx.log_run]; [run_query] drops its exceptions. *)
Variable log_run : payload -> W -> W.

(** A computation threads the world and the trace of events, and either
    returns or raises. *)
Definition M (A : Type) : Type := W * list event -> result A * (W * list event).

Definition ret {A : Type} (a : A) : M A := fun s => (Returned a, s).
Definition raise {A : Type} (e : text) : M A := fun s => (Raised e, s).
Definition bind {A B : Type} (m : M A) (f : A -> M B) : M B :=
  fun s =>
    match m s with
    | (Returned a, s') => f a s'
    | (Raised e, s') => (Raised e, s')
    end.
(** [try: ... except Exception as e:] *)
Definition catch {A : Type} (m : M A) : M (result A) :=
  fun s => let '(r, s') := m s in (Returned r, s').
Definition emit (ev : event) : M unit :=
  fun s => (Returned tt, (fst s, snd s ++ [ev])).
Definition lift {A : Type} (f : W -> A * W) : M A :=
  fun s => let '(a, w') := f (fst s) in (Returned a, (w', snd s)).
Definition of_result {A : Type} (r : result A) : M A :=
  match r with
  | Returned a => ret a
  | Raised e => raise e
  end.

Notation "x <- m ;; k" := (bind m (fun x => k))
  (at level 61, m at next level, right associativity).
Notation "m ;;; k" := (bind m (fun _ => k))
  (at level 61, right associativity).

Definition try_models_io (messages : list message) (pref : text) : M (trial * list trial) :=
  emit (Race messages) ;;;
  race <- lift (providers messages) ;;
  of_result (try_models race pref).

Definition run_sql_io (s : text) : M table :=
  emit (Exec s) ;;;
  r <- lift (run_sql s) ;;
  of_result r.

Definition repair_known_errors_io (s err : text) : M (option text) :=
  emit (KnownRepair s err) ;;;
  ret (gr.repair_known_errors s err).

Definition log_run_io (p : payload) : M unit :=
  emit (Logged p) ;;;
  lift (fun w => (tt, log_run p w)).

(** [if fixed and looks_select_only(fixed) and not contains_bad(fixed) and
    mentions_allowed_objects(fixed)] *)
Definition usable (candidate : option text) : option text :=
  match candidate with
  | Some c => if gr.nonempty c && passes_three c then Some c else None
  | None => None
  end.

Definition repair_messages (messages : list message) (safe_sql e : text) : list message :=
  messages ++
  [ Message (L "assistant") (L "```sql" ++ nl ++ safe_sql ++ nl ++ L "```");
    Message (L "user")
      (L "Your SQL failed with error:" ++ nl ++ e ++ nl ++
       L "Fix it and return ONLY corrected SQL in ```sql ...```.") ].

(** The [except] branch of [run_query]: the failed text and its error in,
    the table and the text that produced it out. *)
Definition repair (messages : list message) (store_id winner_pref : text)
    (data_end_date : option text) (safe_sql e : text) : M (table * text) :=
  fixed_once <- repair_known_errors_io safe_sql e ;;
  match usable fixed_once with
  | Some fixed_once =>
      let fixed_once := rewrite fixed_once store_id data_end_date in
      t <- run_sql_io fixed_once ;;
      ret (t, fixed_once)
  | None =>
      repaired <- try_models_io (repair_messages messages safe_sql e) winner_pref ;;
      let repaired_sql := gr.or_empty (gr.extract_sql (text_ (fst repaired))) in
      match usable (Some repaired_sql) with
      | Some repaired_sql =>
          let repaired_sql := rewrite repaired_sql store_id data_end_date in
          t <- run_sql_io repaired_sql ;;
          ret (t, repaired_sql)
      | None => raise e
      end
  end.

Definition run_query (store_id user_id question winner_pref : text) : M QueryResult :=
  let messages := build_messages store_id question in
  race <- try_models_io messages winner_pref ;;
  let winner := fst race in
  let trials := snd race in
  let sql := gr.or_empty (gr.extract_sql (text_ winner)) in
  if negb (gr.nonempty sql) then raise (L "No SQL found in the model's answer.")
  else if negb (gr.looks_select_only sql) then raise (L "SQL is not SELECT/WITH-only.")
  else if gr.contains_bad sql then raise (L "Blocked keyword in SQL.")
  else if negb (gr.mentions_allowed_objects sql)
  then raise (L "SQL references objects outside allowed views/tables.")
  else
    match gr.columns_exist sql with
    | (false, col_msg) =>
        raise (L "Invalid column reference(s): " ++
               match col_msg with Some m => m | None => L "None" end)
    | (true, _) =>
        data_end_date <- lift (get_data_end_date store_id) ;;
        let safe_sql := rewrite sql store_id data_end_date in
        first <- catch (run_sql_io safe_sql) ;;
        done <- match first with
                | Returned t => ret (t, safe_sql)
                | Raised e => repair messages store_id winner_pref data_end_date safe_sql e
                end ;;
        let t := fst done in
        let safe_sql := snd done in
        log_run_io (Payload user_id store_id question (model winner)
                            (latency_ms winner) (cost_usd winner) trials) ;;;
        ret (MkQueryResult safe_sql t trials winner data_end_date)
    end.

(** The trace of one invocation, started in world [w]. *)
Definition trace_of (store_id user_id question winner_pref : text) (w : W) : list event :=
  snd (snd (run_query store_id user_id question winner_pref (w, []))).

Definition outcome_of (store_id user_id question winner_pref : text) (w : W)
  : result QueryResult :=
  fst (run_query store_id user_id question winner_pref (w, [])).

End World.

(** The texts sent to [dbx.run_sql], the known-error repairs and the races
    of a trace. *)
Definition executed (tr : list event) : list text :=
  flat_map (fun ev => match ev with Exec s => [s] | _ => [] end) tr.

End qs.
(** * Notions of the specification and concrete scenarios *)

(** ** The shape check *)

(** The text left after stripping at most one trailing terminator, in the
    words of the specification: trim, and if the last character is a
    terminator drop it and trim the right end again. *)
Definition without_one_terminator (sql : text) : text :=
  let t := strip sql in
  match rev t with
  | c :: r => if ascii_eqb c ";"%char then rstrip (rev r) else t
  | [] => t
  end.

(** Some prefix of [s] is the keyword, up to case. *)
Definition begins_ci (kw s : text) : Prop :=
  exists pre rest, s = pre ++ rest /\ lower pre = kw.


(** ** Winner selection *)

(** [w] ranks no worse than [t]: higher score first, then the cheaper, then
    the faster. *)
Definition no_worse_cheapest (w t : llm.trial) : Prop :=
  (llm.score t < llm.score w)%nat \/
  (llm.score w = llm.score t /\
   ((llm.cost_usd w < llm.cost_usd t)%Z \/
    (llm.cost_usd w = llm.cost_usd t /\ (llm.latency_ms w <= llm.latency_ms t)%Z))).

(** The same with latency before cost. *)
Definition no_worse_fastest (w t : llm.trial) : Prop :=
  (llm.score t < llm.score w)%nat \/
  (llm.score w = llm.score t /\
   ((llm.latency_ms w < llm.latency_ms t)%Z \/
    (llm.latency_ms w = llm.latency_ms t /\ (llm.cost_usd w <= llm.cost_usd t)%Z))).

(** The three trials of the specification's example: scores 3, 3, 1, costs
    0.002, 0.001 and 0.0001 dollars, latencies 500, 900 and 50 ms. *)
Definition example_trials : list llm.trial :=
  [ llm.Trial (L "m1") (L "") 500 2000 3;
    llm.Trial (L "m2") (L "") 900 1000 3;
    llm.Trial (L "m3") (L "") 50 100 1 ].

(** The same example as a race: three providers whose answers score 3, 3
    and 1, answered after 500, 900 and 50 ms, with token counts that cost
    0.002, 0.001 and 0.0001 dollars at 2 and 8 millionths of a dollar per
    prompt and completion token. *)
Definition example_race : list (settings.model * llm.provider) :=
  let answer (t : text) (pin pout ms : Z) :=
    llm.Provider
      (fun _ => llm.Responded
                  (llm.Response (llm.Text (L "```sql" ++ ["010"%char] ++ t ++ ["010"%char]
                                            ++ L "```")) pin pout)) ms in
  [ (settings.Model (L "m1") 2 8, answer (L "select * from stores") 600 100 500)%Z;
    (settings.Model (L "m2") 2 8, answer (L "select * from stores") 100 100 900)%Z;
    (settings.Model (L "m3") 2 8, answer (L "drop it") 10 10 50)%Z ].

(** ** Temporal anchoring *)

(** An anchor that [re.sub] uses as it is: it holds no backslash. *)
Definition plain_template (t : text) : Prop := ~ In "\"%char t.

(** ** The model race *)

(** The race as the specification describes it: as long as one configured
    provider answers within its retries, the race returns, with one trial
    per configured provider. *)
Definition race_survives_failed_providers : Prop :=
  forall (race : list (settings.model * llm.provider)) (pref : text),
    (exists mp r, In mp race /\ llm._call_model (fst mp) (snd mp) = llm.Returned r) ->
    exists w trials,
      llm.try_models race pref = llm.Returned (w, trials) /\ length trials = length race.

(** A provider that refuses every connection, and one that answers at once. *)
Definition provider_down : llm.provider :=
  llm.Provider (fun _ => llm.TransportError (L "ConnectError")) 3000.

Definition provider_up (answer : text) : llm.provider :=
  llm.Provider (fun _ => llm.Responded (llm.Response (llm.Text answer) 100 20)) 150.

Definition model_a : settings.model := settings.Model (L "nousresearch/hermes-4-405b") 2 8.
Definition model_b : settings.model := settings.Model (L "qwen/qwen3-coder") 2 8.

Definition fenced (sql : text) : text := L "```sql" ++ qs.nl ++ sql ++ qs.nl ++ L "```".

(** Two configured providers, the first down, the second answering. *)
Definition race_one_down : list (settings.model * llm.provider) :=
  [ (model_a, provider_down);
    (model_b, provider_up (fenced (L "select * from stores"))) ].

(** ** The traces of [run_query] *)

Definition logged_or_not (tail : list qs.event) : Prop :=
  tail = [] \/ exists p, tail = [qs.Logged p].

(** What can follow the first execution of [s1] (the rewritten candidate of
    the race for [m], with anchor [d] and store [sid]). *)
Inductive after_first (sid : text) (m : list qs.message) (d : option text) (s1 : text)
  : list qs.event -> Prop :=
| AF_done p :
    after_first sid m d s1 [qs.Logged p]
| AF_known e f tail :
    qs.usable (gr.repair_known_errors s1 e) = Some f ->
    logged_or_not tail ->
    after_first sid m d s1
      (qs.KnownRepair s1 e :: qs.Exec (qs.rewrite f sid d) :: tail)
| AF_race e :
    qs.usable (gr.repair_known_errors s1 e) = None ->
    after_first sid m d s1
      [qs.KnownRepair s1 e; qs.Race (qs.repair_messages m s1 e)]
| AF_race_exec e r tail :
    qs.usable (gr.repair_known_errors s1 e) = None ->
    qs.usable (Some r) = Some r ->
    logged_or_not tail ->
    after_first sid m d s1
      (qs.KnownRepair s1 e :: qs.Race (qs.repair_messages m s1 e)
         :: qs.Exec (qs.rewrite r sid d) :: tail).

(** The traces of one invocation for store [sid]. *)
Inductive pipeline_trace (sid : text) : list qs.event -> Prop :=
| PT_race m :
    pipeline_trace sid [qs.Race m]
| PT_exec m sql d tail :
    qs.validator sql = true ->
    after_first sid m d (qs.rewrite sql sid d) tail ->
    pipeline_trace sid (qs.Race m :: qs.Exec (qs.rewrite sql sid d) :: tail).

(** The invariant as the specification states it: whatever the world does,
    every text sent to the database passes the validator as it is. *)
Definition executes_only_validated_text : Prop :=
  forall (W : Type) build_messages providers run_sql get_data_end_date log_run
         (store_id user_id question winner_pref : text) (w : W) (s : text),
    In s (qs.executed
            (@qs.trace_of W build_messages providers run_sql get_data_end_date log_run
                          store_id user_id question winner_pref w)) ->
    qs.validator s = true.

(** A world in which the one provider answers with a query that ends in a
    terminator, the database accepts everything and the data end on
    2024-12-01. *)
Module calm_world.
Definition W : Type := unit.
Definition build_messages (store_id question : text) : list qs.message :=
  [qs.Message (L "user") question].
Definition providers (_ : list qs.message) (w : W)
  : list (settings.model * llm.provider) * W :=
  ([(model_b, provider_up (fenced (L "select * from stores;")))], w).
Definition run_sql (_ : text) (w : W) : llm.result qs.table * W :=
  (llm.Returned ([L "store_id"], []), w).
Definition get_data_end_date (_ : text) (w : W) : option text * W :=
  (Some (L "2024-12-01"), w).
Definition log_run (_ : qs.payload) (w : W) : W := w.
Definition trace : list qs.event :=
  qs.trace_of build_messages providers run_sql get_data_end_date log_run
              (L "S001") (L "u1") (L "all stores") (L "cheapest") tt.
End calm_world.

(** ** The rewrite sequence *)


(** ** Sorted sets of texts *)


(** ** Store predicates *)




(** ** Spans of a match *)

(** Between [st] and [out] the matcher passed exactly the text [m]. *)
Definition spans (st : mstate) (m : text) (out : mstate) : Prop :=
  ahead st = m ++ ahead out /\ before out = rev m ++ before st.

(** A change of the text around a span [m], from [bef]/[rest] to
    [bef']/[rest'], that keeps every word boundary of the span: wherever
    [\b] holds at a position of [m] in the old surroundings, it holds in
    the new ones. *)
Definition keeps_boundaries (bef m rest bef' rest' : text) : Prop :=
  forall x y, m = x ++ y ->
    xorb (head_word (rev x ++ bef)) (head_word (y ++ rest)) = true ->
    xorb (head_word (rev x ++ bef')) (head_word (y ++ rest')) = true.

(** What a state of a run is in other surroundings. *)
Definition moved (m bef' rest' : text) (out' : mstate) : Prop :=
  before out' = rev m ++ bef' /\ ahead out' = rest'.

(** The loops of [Star] and [Lazy], as [run] has them. *)
Definition star_loop (a : re) : nat -> mstate -> list mstate :=
  fix loop (fuel : nat) (st : mstate) : list mstate :=
    match fuel with
    | 0 => [st]
    | S fuel' =>
        flat_map (fun st' => if progress st st' then loop fuel' st' else [])
                 (run a st) ++ [st]
    end.

Definition lazy_loop (a : re) : nat -> mstate -> list mstate :=
  fix loop (fuel : nat) (st : mstate) : list mstate :=
    match fuel with
    | 0 => [st]
    | S fuel' =>
        st :: flat_map (fun st' => if progress st st' then loop fuel' st' else [])
                       (run a st)
    end.

(** ** Texts with stand-alone temporal expressions *)

(** A temporal expression that anchoring replaces: [CURRENT_DATE],
    [CURRENT_TIMESTAMP] or [NOW()], in any letter case. *)
Definition temporal (K : text) : Prop :=
  lower K = L "current_date" \/ lower K = L "current_timestamp" \/ lower K = L "now()".

(** A text that holds neither [current_] nor [now(], in any letter case:
    none of the five patterns of anchoring can match in it. *)
Definition quiet (t : text) : Prop :=
  contains (L "current_") (lower t) = false /\ contains (L "now(") (lower t) = false.

(** An anchor as the database gives it: digits and hyphens. *)
Definition date_char (c : ascii) : bool := is_digit c || ascii_eqb c "-"%char.
Definition date_like (d : text) : Prop := d <> [] /\ forallb date_char d = true.

(** What anchoring puts in the place of a temporal expression. *)
Definition as_date (d : text) : text := L "'" ++ d ++ L "'::date".
Definition as_timestamp (d : text) : text := L "'" ++ d ++ L "'::timestamp".
Definition anchored (d K : text) : text :=
  if text_eqb (lower K) (L "current_date") then as_date d else as_timestamp d.

(** A text cut into stretches, each followed by a block, and a last
    stretch. *)
Fixpoint render (segs : list (text * text)) (last : text) : text :=
  match segs with
  | [] => last
  | (a, B) :: segs' => a ++ B ++ render segs' last
  end.

(** The blocks stand alone between quiet stretches: each stretch is quiet,
    the stretch before a block is empty at the start of the text or ends in
    a character that is no word character, and the stretch after a block is
    empty at the end of the text or begins with one. *)
Fixpoint stretches (block : text -> Prop) (first : bool)
    (segs : list (text * text)) (last : text) : Prop :=
  match segs with
  | [] => quiet last /\ (first = true \/ head_word last = false)
  | (a, B) :: segs' =>
      quiet a /\ head_word (rev a) = false
      /\ (first = true \/ (a <> [] /\ head_word a = false))
      /\ block B
      /\ stretches block false segs' last
  end.

Definition stands_alone (segs : list (text * text)) (last : text) : Prop :=
  stretches temporal true segs last.

(** The text with every temporal expression replaced by its anchor. *)
Definition render_anchored (d : text) (segs : list (text * text)) (last : text) : text :=
  render (map (fun s => (fst s, anchored d (snd s))) segs) last.

(** Some stretch satisfies [F]. *)
Definition some_stretch (F : text -> bool) (segs : list (text * text)) (last : text) : Prop :=
  Exists (fun s => F (fst s) = true) segs \/ F last = true.

(** No character of [x] that lowers to [first] comes after a character that
    is no word character ([prev] tells whether the character before [x] is
    a word character). *)
Fixpoint starts_nowhere (first : ascii) (prev : bool) (x : text) : bool :=
  match x with
  | [] => true
  | c :: x' =>
      (negb (ascii_eqb (lower_char c) first) || prev) && starts_nowhere first (is_word c) x'
  end.

(** The blocks of a text during anchoring: temporal expressions and the
    anchors that replaced some of them. *)
Definition anchoring_block (d B : text) : Prop :=
  temporal B \/ B = as_date d \/ B = as_timestamp d.

(** An anchor in the place of the blocks that [hit] selects. *)
Definition replace_blocks (hit : text -> bool) (repl : text)
    (segs : list (text * text)) : list (text * text) :=
  map (fun s => (fst s, if hit (snd s) then repl else snd s)) segs.

Definition is_text (W : string) (B : text) : bool := text_eqb (lower B) (L W).

(** The text ends in white space. *)
Definition last_space (x : text) : bool :=
  match rev x with
  | c :: _ => is_space c
  | [] => false
  end.
(** * Properties *)

(** ** The embedding on concrete inputs *)

Example extract_fenced :
  gr.extract_sql (L "Here: ```sql
SELECT 1 FROM stores
``` done") = Some (L "SELECT 1 FROM stores").
Proof. vm_compute. reflexivity. Qed.

Example extract_bare :
  gr.extract_sql (L "Use  select a from stores  ") = Some (L "select a from stores").
Proof. vm_compute. reflexivity. Qed.

Example extract_none : gr.extract_sql (L "no query here") = None.
Proof. vm_compute. reflexivity. Qed.

Example bad_drop : gr.contains_bad (L "select 1; DROP table x") = true.
Proof. vm_compute. reflexivity. Qed.

Example bad_not_substring : gr.contains_bad (L "select dropped from stores") = false.
Proof. vm_compute. reflexivity. Qed.

Example store_filter_plain :
  gr.ensure_store_filter (L "SELECT * FROM v_sales_daily s ORDER BY s.date") (L "S001")
  = L "SELECT * FROM v_sales_daily s WHERE s.store_id = 'S001' ORDER BY s.date".
Proof. vm_compute. reflexivity. Qed.

Example limit_added :
  gr.ensure_limit (L "SELECT * FROM stores;  ") = L "SELECT * FROM stores LIMIT 200".
Proof. vm_compute. reflexivity. Qed.

Example score_three :
  gr.grounding_score (L "```sql
select * from stores
```") = 3.
Proof. vm_compute. reflexivity. Qed.

(** ** Text *)

Section TextFacts.

Lemma ascii_eqb_true (a b : ascii) : ascii_eqb a b = true <-> a = b.
Proof. unfold ascii_eqb. apply Ascii.eqb_eq. Qed.

Lemma ascii_eqb_refl (a : ascii) : ascii_eqb a a = true.
Proof. apply ascii_eqb_true. reflexivity. Qed.

Lemma text_eqb_true (a b : text) : text_eqb a b = true <-> a = b.
Proof.
  revert b. induction a as [|x a IH]; intros [|y b]; simpl; split; try easy.
  - intros H. apply andb_true_iff in H as [Hx Hab].
    apply ascii_eqb_true in Hx. apply IH in Hab. now subst.
  - intros H. inversion H; subst. rewrite ascii_eqb_refl. simpl. now apply IH.
Qed.

Lemma startswith_prefix (p s : text) :
  startswith p s = true <-> exists rest, s = p ++ rest.
Proof.
  revert s. induction p as [|x p IH]; intros s; simpl.
  - split; [intros _; now exists s | easy].
  - destruct s as [|y s].
    + split; [easy | intros [rest H]; discriminate].
    + rewrite andb_true_iff, ascii_eqb_true, IH. split.
      * intros [-> [rest ->]]. now exists rest.
      * intros [rest H]. inversion H; subst. split; [easy | now exists rest].
Qed.

Lemma contains_char (c : ascii) (s : text) :
  contains [c] s = true <-> In c s.
Proof.
  induction s as [|y s IH]; simpl.
  - split; [discriminate | easy].
  - rewrite orb_true_iff, IH, andb_true_r, ascii_eqb_true.
    split; intros [H | H]; auto.
Qed.

Lemma endswith_last (c : ascii) (s : text) :
  endswith [c] s = true <-> exists r, s = r ++ [c].
Proof.
  unfold endswith. rewrite startswith_prefix. simpl. split.
  - intros [rest H]. exists (rev rest).
    rewrite <- (rev_involutive s), H. reflexivity.
  - intros [r ->]. exists (rev r). now rewrite rev_app_distr.
Qed.

Lemma drop_last_snoc (r : text) (c : ascii) : drop_last (r ++ [c]) = r.
Proof. unfold drop_last. apply removelast_last. Qed.

(** [lstrip] removes a run of white space and nothing else. *)
Lemma lstrip_split (s : text) :
  exists sp, s = sp ++ lstrip s /\ Forall (fun c => is_space c = true) sp.
Proof.
  induction s as [|c s [sp [E F]]]; simpl.
  - now exists [].
  - destruct (is_space c) eqn:Hc.
    + exists (c :: sp). split; [simpl; now f_equal | now constructor].
    + now exists [].
Qed.

Lemma rstrip_split (s : text) :
  exists sp, s = rstrip s ++ sp /\ Forall (fun c => is_space c = true) sp.
Proof.
  unfold rstrip. destruct (lstrip_split (rev s)) as [sp [E F]].
  exists (rev sp). split.
  - rewrite <- rev_app_distr, <- E. now rewrite rev_involutive.
  - apply Forall_rev. exact F.
Qed.

Lemma In_rstrip (c : ascii) (s : text) :
  is_space c = false -> (In c (rstrip s) <-> In c s).
Proof.
  intros Hc. destruct (rstrip_split s) as [sp [E F]].
  split; intros H.
  - rewrite E. apply in_or_app. now left.
  - rewrite E in H. apply in_app_or in H as [H | H]; [exact H |].
    rewrite Forall_forall in F. apply F in H. congruence.
Qed.

Lemma lower_app (a b : text) : lower (a ++ b) = lower a ++ lower b.
Proof. apply map_app. Qed.

Lemma lower_length (a : text) : length (lower a) = length a.
Proof. apply length_map. Qed.

End TextFacts.

(** ** The shape check *)

Lemma startswith_lower_begins (kw s : text) :
  startswith kw (lower s) = true <-> begins_ci kw s.
Proof.
  rewrite startswith_prefix. unfold begins_ci. split.
  - intros [rest H]. exists (firstn (length kw) s), (skipn (length kw) s).
    split; [now rewrite firstn_skipn |].
    unfold lower in *. rewrite <- firstn_map, H.
    rewrite firstn_app, Nat.sub_diag, firstn_all. simpl. apply app_nil_r.
  - intros [pre [rest [-> <-]]]. exists (lower rest). apply lower_app.
Qed.

Lemma shape_body (sql : text) :
  (if endswith gr.semicolon (strip sql) then rstrip (drop_last (strip sql)) else strip sql)
  = without_one_terminator sql.
Proof.
  unfold without_one_terminator, gr.semicolon. simpl.
  destruct (endswith [";"%char] (strip sql)) eqn:He.
  - apply endswith_last in He as [r Hr]. rewrite Hr.
    rewrite drop_last_snoc, rev_app_distr. simpl.
    now rewrite rev_involutive.
  - destruct (rev (strip sql)) as [|c r] eqn:Hrev; [reflexivity|].
    destruct (ascii_eqb c ";"%char) eqn:Hc; [|reflexivity].
    apply ascii_eqb_true in Hc. subst c.
    assert (endswith [";"%char] (strip sql) = true).
    { apply endswith_last. exists (rev r).
      rewrite <- (rev_involutive (strip sql)), Hrev. reflexivity. }
    congruence.
Qed.

(** C4.  The shape check trims the text, drops at most one trailing
    terminator, and then accepts exactly when the rest begins with [select]
    or [with] up to case and holds no terminator; so a text with a terminator
    before its last character is rejected, and so is a text that does not
    begin with either keyword. *)
Theorem looks_select_only_shape (sql : text) :
  let body := without_one_terminator sql in
  (gr.looks_select_only sql = true <->
     (begins_ci (L "select") body \/ begins_ci (L "with") body)
     /\ ~ In ";"%char body)
  /\ (forall a b, strip sql = a ++ L ";" ++ b -> b <> [] ->
        gr.looks_select_only sql = false)
  /\ (~ (begins_ci (L "select") body \/ begins_ci (L "with") body) ->
        gr.looks_select_only sql = false).
Proof.
  intros body.
  assert (Hiff : gr.looks_select_only sql = true <->
     (begins_ci (L "select") body \/ begins_ci (L "with") body)
     /\ ~ In ";"%char body).
  { unfold gr.looks_select_only. rewrite shape_body. fold body.
    rewrite <- !startswith_lower_begins.
    destruct (startswith (L "select") (lower body)) eqn:Hs;
      destruct (startswith (L "with") (lower body)) eqn:Hw; simpl;
      try (destruct (contains gr.semicolon body) eqn:Hc;
           [ apply contains_char in Hc; split; [discriminate | intros [_ H]; tauto]
           | split; [intros _; split; [auto|] | reflexivity];
             intros Hin; apply contains_char in Hin; unfold gr.semicolon in Hc;
             simpl in Hc, Hin; congruence ]).
    split; [discriminate | intros [[H|H] _]; discriminate]. }
  split; [exact Hiff | split].
  - intros a b Hsplit Hb.
    apply not_true_is_false. intros E.
    apply Hiff in E as [_ Hno]. apply Hno.
    unfold body, without_one_terminator. rewrite Hsplit.
    destruct (exists_last Hb) as [b' [z Hz]]. subst b.
    replace (a ++ L ";" ++ b' ++ [z]) with ((a ++ L ";" ++ b') ++ [z])
      by (now rewrite <- !app_assoc).
    rewrite rev_app_distr. simpl.
    destruct (ascii_eqb z ";"%char).
    + rewrite rev_involutive. apply In_rstrip; [reflexivity|].
      apply in_or_app. right. now left.
    + apply in_or_app. left. apply in_or_app. right. now left.
  - intros Hn. apply not_true_is_false. intros E.
    apply Hiff in E as [H _]. contradiction.
Qed.

(** ** Winner selection *)

Section Winner.

Import llm.

Lemma key_ltb_lex (a b : key) :
  key_ltb a b = true <->
  let '(a1, a2, a3) := a in
  let '(b1, b2, b3) := b in
  (a1 < b1 \/ (a1 = b1 /\ (a2 < b2 \/ (a2 = b2 /\ a3 < b3))))%Z.
Proof.
  destruct a as [[a1 a2] a3], b as [[b1 b2] b3]. unfold key_ltb.
  destruct (Z.ltb_spec a1 b1); [split; [lia | reflexivity]|].
  destruct (Z.ltb_spec b1 a1); [split; [discriminate | lia]|].
  destruct (Z.ltb_spec a2 b2); [split; [lia | reflexivity]|].
  destruct (Z.ltb_spec b2 a2); [split; [discriminate | lia]|].
  destruct (Z.ltb_spec a3 b3); split; try lia; try discriminate; reflexivity.
Qed.

Lemma key_ltb_asym (a b : key) : key_ltb a b = true -> key_ltb b a = false.
Proof.
  intros H. apply not_true_is_false. intros H'.
  apply key_ltb_lex in H. apply key_ltb_lex in H'.
  destruct a as [[a1 a2] a3], b as [[b1 b2] b3]. lia.
Qed.

Lemma key_ltb_neg_trans (a b c : key) :
  key_ltb b a = false -> key_ltb c b = false -> key_ltb c a = false.
Proof.
  intros H1 H2. apply not_true_is_false. intros H3.
  apply not_true_iff_false in H1. apply not_true_iff_false in H2.
  rewrite key_ltb_lex in H1, H2, H3.
  destruct a as [[a1 a2] a3], b as [[b1 b2] b3], c as [[c1 c2] c3]. lia.
Qed.

Variable A : Type.
Variable k : A -> key.

Lemma insert_by_not_nil (x : A) (l : list A) : insert_by k x l <> [].
Proof. destruct l; simpl; [easy|]. destruct (key_ltb _ _); easy. Qed.

(** The head of the sorted list is an element no other element precedes. *)
Lemma sorted_by_head (l : list A) (w : A) (rest : list A) :
  sorted_by k l = w :: rest ->
  In w l /\ forall t, In t l -> key_ltb (k t) (k w) = false.
Proof.
  revert w rest. induction l as [|x l IH]; intros w rest; simpl; [discriminate|].
  destruct (sorted_by k l) as [|y r] eqn:Hs.
  - destruct l; [|simpl in Hs; now apply insert_by_not_nil in Hs].
    simpl. intros H. inversion H; subst. split; [now left|].
    intros t [<- | []]. apply not_true_is_false. intros H'.
    pose proof (key_ltb_asym _ _ H'). congruence.
  - destruct (IH y r eq_refl) as [Hin Hmin]. simpl.
    destruct (key_ltb (k y) (k x)) eqn:Hyx; intros H; inversion H; subst.
    + split; [now right|]. intros t [<- | Ht]; [now apply key_ltb_asym | now apply Hmin].
    + split; [now left|]. intros t [<- | Ht].
      * apply not_true_is_false. intros H'.
        pose proof (key_ltb_asym _ _ H'). congruence.
      * apply key_ltb_neg_trans with (b := k y); [exact Hyx | now apply Hmin].
Qed.

Lemma sorted_by_nonempty (l : list A) : l <> [] -> sorted_by k l <> [].
Proof. destruct l; [easy|]. intros _. simpl. apply insert_by_not_nil. Qed.

End Winner.

Lemma pick_winner_minimal (pref : text) (results : list llm.trial) :
  results <> [] ->
  exists w, llm.pick_winner pref results = Some w /\ In w results /\
            forall t, In t results ->
                      llm.key_ltb (llm.sort_key pref t) (llm.sort_key pref w) = false.
Proof.
  intros Hne. unfold llm.pick_winner.
  destruct (llm.sorted_by (llm.sort_key pref) results) as [|w rest] eqn:Hs.
  - now apply sorted_by_nonempty in Hs.
  - exists w. split; [reflexivity|]. now apply sorted_by_head with (rest := rest).
Qed.

(** ** The matcher *)

Section MatcherFacts.

Variable r : re.

Lemma found_search (s : text) : found r s = false <-> search r s = None.
Proof. unfold found. destruct (search r s); split; congruence. Qed.

(** A search that fails found no match at any position to the right. *)
Lemma search_from_none_step (bef : text) (c : ascii) (ah : text) :
  search_from r bef (c :: ah) = None ->
  match_here r bef (c :: ah) = None /\ search_from r (c :: bef) ah = None.
Proof.
  simpl. destruct (match_here r bef (c :: ah)); [discriminate | auto].
Qed.

Lemma search_from_none_here (bef ah : text) :
  search_from r bef ah = None -> match_here r bef ah = None.
Proof.
  destruct ah; simpl; destruct (match_here r bef _); congruence.
Qed.

(** Where the pattern matches nowhere, substitution changes nothing. *)
Lemma sub_from_no_match (repl : text) (ah bef : text) :
  search_from r bef ah = None -> sub_from r repl 0 bef ah = ah.
Proof.
  revert bef. induction ah as [|c ah IH]; intros bef H.
  - apply search_from_none_here in H. simpl. now rewrite H.
  - apply search_from_none_step in H as [Hh Hn].
    simpl. rewrite Hh. f_equal. now apply IH.
Qed.

Lemma sub_no_match (repl s : text) : found r s = false -> sub r repl s = s.
Proof. intros H. apply found_search in H. now apply sub_from_no_match. Qed.

(** A match at some position makes the search succeed. *)
Lemma search_from_complete (pre ah bef : text) :
  match_here r (rev pre ++ bef) ah <> None ->
  search_from r bef (pre ++ ah) <> None.
Proof.
  revert bef. induction pre as [|c pre IH]; intros bef H; simpl in *.
  - destruct ah; simpl; destruct (match_here r bef _); congruence.
  - destruct (match_here r bef (c :: pre ++ ah)); [congruence|].
    apply IH. now rewrite <- app_assoc in H.
Qed.

Lemma found_at (pre ah : text) :
  match_here r (rev pre) ah <> None -> found r (pre ++ ah) = true.
Proof.
  intros H. unfold found, search.
  pose proof (@search_from_complete pre ah [] ) as C.
  rewrite app_nil_r in C. specialize (C H).
  destruct (search_from r [] (pre ++ ah)); congruence.
Qed.

End MatcherFacts.

(** ** Sorted sets of texts *)

Section SortedSet.










End SortedSet.

(** ** The column and alias check *)


(** ** Temporal anchoring *)

Lemma text_eqb_refl (a : text) : text_eqb a a = true.
Proof. now apply text_eqb_true. Qed.

(** C9.  With anchor 2024-12-01 the text [... WHERE date = CURRENT_DATE]
    becomes [... WHERE date = '2024-12-01'::date]; with no anchor ([None] or
    the empty string) every text comes back unchanged, and the rewrite
    sequence of [run_query] then is store-scope injection and capping alone. *)
Theorem replace_current_date_anchors :
  gr.replace_current_date (L "... WHERE date = CURRENT_DATE") (Some (L "2024-12-01"))
    = Some (L "... WHERE date = '2024-12-01'::date")
  /\ (forall sql, gr.replace_current_date sql None = Some sql)
  /\ (forall sql, gr.replace_current_date sql (Some []) = Some sql)
  /\ (forall sql store_id,
        qs.rewrite sql store_id None = gr.ensure_limit (gr.ensure_store_filter sql store_id)).
Proof.
  split; [vm_compute; reflexivity|].
  split; [reflexivity|]. split; [reflexivity|].
  intros sql store_id. unfold qs.rewrite. simpl.
  destruct (gr.ensure_limit (gr.ensure_store_filter sql store_id)); reflexivity.
Qed.

(** C10.  For a non-empty anchor, a text in which none of the five temporal
    patterns occurs gives [None], not the text; a string comes back only when
    it differs from the input; and [run_query] keeps the previous text on
    [None].  (The anchor holds no backslash, so that the replacement
    template of [re.sub] is the literal text.) *)
Theorem replace_current_date_none_when_unchanged (sql anchor : text)
    (Hanchor : anchor <> []) (Hplain : plain_template anchor) :
  (found gr.current_date_re sql = false ->
   found gr.now_re sql = false ->
   found gr.current_timestamp_re sql = false ->
   found gr.current_timestamp_date_re sql = false ->
   found gr.date_trunc_re sql = false ->
   gr.replace_current_date sql (Some anchor) = None)
  /\ (forall s', gr.replace_current_date sql (Some anchor) = Some s' -> s' <> sql)
  /\ (forall store_id,
        gr.replace_current_date
          (gr.ensure_limit (gr.ensure_store_filter sql store_id)) (Some anchor) = None ->
        qs.rewrite sql store_id (Some anchor)
        = gr.ensure_limit (gr.ensure_store_filter sql store_id)).
Proof.
  destruct anchor as [|a anchor]; [contradiction|]. clear Hanchor Hplain.
  split; [|split].
  - intros H1 H2 H3 H4 H5. unfold gr.replace_current_date, gr.apply_subs, gr.anchor_subs.
    simpl fold_left.
    rewrite (@sub_no_match _ _ _ H1), (@sub_no_match _ _ _ H2), (@sub_no_match _ _ _ H3),
      (@sub_no_match _ _ _ H4), (@sub_no_match _ _ _ H5).
    now rewrite text_eqb_refl.
  - intros s'. unfold gr.replace_current_date.
    destruct (text_eqb _ sql) eqn:E; simpl; [discriminate|].
    intros H. inversion H; subst. intros Heq.
    rewrite Heq in E at 1. rewrite text_eqb_refl in E. discriminate.
  - intros store_id H. unfold qs.rewrite. now rewrite H.
Qed.

Lemma replace_current_date_none_witness :
  L "2024-12-01" <> [] /\ plain_template (L "2024-12-01") /\
  gr.replace_current_date (L "select 1 from stores") (Some (L "2024-12-01")) = None.
Proof.
  assert (Hplain : plain_template (L "2024-12-01")).
  { unfold plain_template. vm_compute. intuition discriminate. }
  split; [discriminate | split; [exact Hplain|]].
  apply (@replace_current_date_none_when_unchanged
           (L "select 1 from stores") (L "2024-12-01")); [discriminate | exact Hplain | | | | |];
    vm_compute; reflexivity.
Defined.

(** ** The model race *)

Section Race.

Import llm.

Lemma retry_loop_bound (p : provider) (left : list nat) (i : nat) :
  1 <= snd (fst (retry_loop p i left)) <= S (length left).
Proof.
  revert i. induction left as [|b left IH]; intros i; simpl.
  - destruct (post p i); simpl; lia.
  - destruct (post p i); simpl; try lia.
    specialize (IH (S i)).
    destruct (retry_loop p (S i) left) as [[r n] slept]. simpl in *. lia.
Qed.

(** Transport errors on every request exhaust the retries. *)
Lemma retry_loop_exhausted (p : provider) (left : list nat) (i : nat) :
  (forall j, i <= j <= i + length left -> exists e, post p j = TransportError e) ->
  exists e, fst (fst (retry_loop p i left)) = Raised e
            /\ snd (fst (retry_loop p i left)) = S (length left).
Proof.
  revert i. induction left as [|b left IH]; intros i H; simpl.
  - destruct (H i) as [e He]; [simpl; lia|]. rewrite He. now exists e.
  - destruct (H i) as [e He]; [simpl; lia|]. rewrite He.
    destruct (IH (S i)) as [e' [Hr Hn]].
    { intros j Hj. apply H. simpl. lia. }
    destruct (retry_loop p (S i) left) as [[r n] slept]. simpl in *.
    exists e'. split; [exact Hr | now rewrite Hn].
Qed.

Variable A : Type.

Lemma gather_returned (tasks : list (result A)) (l : list A) :
  gather tasks = Returned l <-> tasks = map Returned l.
Proof.
  revert l. induction tasks as [|t tasks IH]; intros l; simpl.
  - split; intros H.
    + inversion H. reflexivity.
    + destruct l; [reflexivity | discriminate].
  - destruct t as [a | e].
    + destruct (gather tasks) as [l' | e'] eqn:G.
      * split; intros H.
        -- inversion H; subst. simpl. f_equal. now apply IH.
        -- destruct l as [|a0 l0]; [discriminate|]. simpl in H. inversion H; subst.
           f_equal. f_equal. symmetry.
           assert (E : Returned l' = Returned l0) by (now apply IH). now inversion E.
      * split; [discriminate|]. intros H.
        destruct l as [|a0 l0]; [discriminate|]. simpl in H. inversion H; subst.
        assert (E : @Raised (list A) e' = Returned l0) by (now apply IH). discriminate.
    + split; [discriminate|]. intros H. destruct l; discriminate.
Qed.

Lemma gather_raised (tasks : list (result A)) (e : text) :
  In (Raised e) tasks -> exists e', gather tasks = Raised e'.
Proof.
  induction tasks as [|t tasks IH]; simpl; [easy|].
  intros [-> | H]; [now exists e|].
  destruct t as [a | e0]; [|now exists e0].
  destruct (IH H) as [e' ->]. now exists e'.
Qed.

Lemma gather_all_returned (tasks : list (result A)) :
  (forall t, In t tasks -> exists a, t = Returned a) ->
  exists l, gather tasks = Returned l /\ length l = length tasks.
Proof.
  induction tasks as [|t tasks IH]; intros H; simpl.
  - now exists [].
  - destruct (H t) as [a ->]; [now left|].
    destruct IH as [l [-> Hl]]; [intros t' Ht'; apply H; now right|].
    exists (a :: l). split; [reflexivity | simpl; now rewrite Hl].
Qed.

Lemma score_all_gather (replies : list reply) :
  score_all replies = gather (map score_reply replies).
Proof.
  induction replies as [|r replies IH]; [reflexivity|].
  cbn [score_all map gather]. destruct (score_reply r); [|reflexivity].
  now rewrite IH.
Qed.

Lemma call_model_text (m : settings.model) (p : provider) (r : reply) (t : text) :
  _call_model m p = Returned r -> r_text r = Some t ->
  exists d, call_openrouter_sync p = Returned d /\ content d = Text t.
Proof.
  unfold _call_model. destruct (call_openrouter_sync p) as [d | e]; [|discriminate].
  cbv zeta. destruct (content d) as [| | t0] eqn:Hc; intros H Ht; try discriminate;
    inversion H; subst; cbn [r_text] in Ht; [discriminate|].
  inversion Ht; subst. now exists d.
Qed.

Lemma call_model_of_text (m : settings.model) (p : provider) (d : response) (t : text) :
  call_openrouter_sync p = Returned d -> content d = Text t ->
  exists r, _call_model m p = Returned r /\ r_text r = Some t.
Proof.
  intros Hd Hc. unfold _call_model. rewrite Hd. cbv zeta. rewrite Hc.
  eexists. split; reflexivity.
Qed.

Lemma call_model_id (m : settings.model) (p : provider) (r : reply) :
  _call_model m p = Returned r -> r_model r = settings.id m.
Proof.
  unfold _call_model. destruct (call_openrouter_sync p) as [d | e]; [|discriminate].
  cbv zeta. destruct (content d); intros H; try discriminate; now inversion H.
Qed.

Lemma score_reply_model (r : reply) (t : trial) :
  score_reply r = Returned t ->
  model t = r_model r /\ r_text r = Some (text_ t)
  /\ score t = gr.grounding_score (text_ t).
Proof.
  unfold score_reply. destruct (r_text r) as [x|]; [|discriminate].
  intros H. inversion H; subst. repeat split.
Qed.

End Race.

Lemma map_eq_In (A B C : Type) (f : A -> C) (g : B -> C) (l : list A) (l' : list B) :
  map f l = map g l' -> forall x, In x l -> exists y, In y l' /\ f x = g y.
Proof.
  revert l'. induction l as [|a l IH]; intros [|b l'] H x Hx; try discriminate;
    [contradiction|].
  simpl in H. inversion H as [[Hab Hl]]. destruct Hx as [<- | Hx].
  - exists b. split; [now left | exact Hab].
  - destruct (IH l' Hl x Hx) as [y [Hy E]]. exists y. split; [now right | exact E].
Qed.

(** What a returning race went through. *)
Lemma try_models_returned (race : list (settings.model * llm.provider)) (pref : text)
    (w : llm.trial) (trials : list llm.trial) :
  llm.try_models race pref = llm.Returned (w, trials) ->
  exists replies,
    map (fun mp => llm._call_model (fst mp) (snd mp)) race = map llm.Returned replies
    /\ map llm.score_reply replies = map llm.Returned trials
    /\ llm.pick_winner pref trials = Some w.
Proof.
  unfold llm.try_models.
  destruct (llm.gather _) as [replies | e] eqn:G; [|discriminate].
  destruct (llm.score_all replies) as [results | e] eqn:S; [|discriminate].
  destruct (llm.pick_winner pref results) as [w' |] eqn:P; [|discriminate].
  intros H. inversion H; subst. exists replies.
  split; [now apply gather_returned|]. split; [|exact P].
  rewrite score_all_gather in S. now apply gather_returned.
Qed.

(** A race all of whose calls return a text returns. *)
Lemma try_models_returns (race : list (settings.model * llm.provider)) (pref : text) :
  race <> [] ->
  (forall mp, In mp race ->
     exists r t, llm._call_model (fst mp) (snd mp) = llm.Returned r /\ llm.r_text r = Some t) ->
  exists w trials,
    llm.try_models race pref = llm.Returned (w, trials) /\ length trials = length race.
Proof.
  intros Hne Hall. unfold llm.try_models.
  destruct (@gather_all_returned _ (map (fun mp => llm._call_model (fst mp) (snd mp)) race))
    as [replies [G Hlen]].
  { intros t Ht. apply in_map_iff in Ht as [mp [<- Hmp]].
    destruct (Hall mp Hmp) as [r [_ [Hr _]]]. now exists r. }
  rewrite G. rewrite length_map in Hlen.
  apply gather_returned in G.
  destruct (@gather_all_returned _ (map llm.score_reply replies)) as [trials [S Hlen']].
  { intros t Ht. apply in_map_iff in Ht as [r [<- Hr]].
    destruct (@map_eq_In _ _ _ llm.Returned (fun mp => llm._call_model (fst mp) (snd mp))
                replies race (eq_sym G) r Hr) as [mp [Hmp E]].
    destruct (Hall mp Hmp) as [r' [t' [Hr' Ht']]].
    rewrite Hr' in E. inversion E; subst r'.
    unfold llm.score_reply. rewrite Ht'. eauto. }
  rewrite score_all_gather, S. rewrite length_map in Hlen'.
  destruct (@pick_winner_minimal pref trials) as [w [-> _]].
  { destruct trials; [|discriminate]. destruct replies; [|discriminate].
    destruct race; [contradiction | discriminate]. }
  exists w, trials. split; [reflexivity | congruence].
Qed.


(** The race fails as soon as one provider has failed, although another
    answered: the statement of the specification does not hold. *)
Lemma race_fails_with_one_provider_down : ~ race_survives_failed_providers.
Proof.
  intros H.
  destruct (H race_one_down (L "cheapest")) as [w [trials [Hr _]]].
  - eexists (_, _), _. split; [right; left; reflexivity |]. vm_compute. reflexivity.
  - vm_compute in Hr. discriminate.
Qed.

(** C2, as the code has it.  A call makes between one and four requests and
    four transport errors in a row end it with the last error; a race that
    returns has one scored trial per configured provider, in configuration
    order, the winner among them; one provider whose call raises, or whose
    completion carries a content that is no string, makes the whole race
    raise; and the race returns exactly when the configuration is not empty
    and every provider call returned a completion whose content is a
    string. *)
Theorem race_needs_every_provider :
  (forall p, 1 <= llm.requests_made p <= 4)
  /\ (forall p, (forall j, j <= 3 -> exists e, llm.post p j = llm.TransportError e) ->
        exists e, llm.call_openrouter_sync p = llm.Raised e /\ llm.requests_made p = 4)
  /\ (forall race pref w trials,
        llm.try_models race pref = llm.Returned (w, trials) ->
        In w trials
        /\ map llm.model trials = map (fun mp => settings.id (fst mp)) race
        /\ (forall t, In t trials -> llm.score t = gr.grounding_score (llm.text_ t))
        /\ exists replies,
             map (fun mp => llm._call_model (fst mp) (snd mp)) race = map llm.Returned replies
             /\ map llm.score_reply replies = map llm.Returned trials)
  /\ (forall race pref mp e,
        In mp race -> llm._call_model (fst mp) (snd mp) = llm.Raised e ->
        exists e', llm.try_models race pref = llm.Raised e')
  /\ (forall race pref mp d,
        In mp race -> llm.call_openrouter_sync (snd mp) = llm.Returned d ->
        llm.content d = llm.NotText ->
        exists e', llm.try_models race pref = llm.Raised e')
  /\ (forall race pref,
        (exists w trials, llm.try_models race pref = llm.Returned (w, trials))
        <-> race <> []
            /\ forall mp, In mp race ->
                  exists d t, llm.call_openrouter_sync (snd mp) = llm.Returned d
                              /\ llm.content d = llm.Text t).
Proof.
  assert (Hiff : forall race pref,
        (exists w trials, llm.try_models race pref = llm.Returned (w, trials))
        <-> race <> []
            /\ forall mp, In mp race ->
                  exists d t, llm.call_openrouter_sync (snd mp) = llm.Returned d
                              /\ llm.content d = llm.Text t).
  { intros race pref. split.
    - intros [w [trials H]].
      destruct (try_models_returned _ _ H) as [replies [G [S P]]]. split.
      + intros ->. destruct replies; [|discriminate]. destruct trials; [|discriminate].
        discriminate.
      + intros mp Hmp.
        destruct (map_eq_In _ _ _ _ G mp Hmp) as [r [Hr E]].
        destruct (map_eq_In _ _ _ _ S r Hr) as [t [_ Et]].
        apply score_reply_model in Et as [_ [Ht _]].
        destruct (call_model_text _ _ E Ht) as [d [Hd Hc]]. now exists d, (llm.text_ t).
    - intros [Hne Hall].
      destruct (@try_models_returns race pref Hne) as [w [trials [H _]]]; [|now exists w, trials].
      intros mp Hmp. destruct (Hall mp Hmp) as [d [t [Hd Hc]]].
      destruct (call_model_of_text (fst mp) _ Hd Hc) as [r [Hr Ht]]. now exists r, t. }
  split; [|split; [|split; [|split; [|split]]]].
  - intros p. unfold llm.requests_made, llm.call_openrouter_sync_log.
    apply (@retry_loop_bound p llm.backoffs 0).
  - intros p H. unfold llm.call_openrouter_sync, llm.requests_made,
      llm.call_openrouter_sync_log.
    apply (@retry_loop_exhausted p llm.backoffs 0).
    intros j Hj. apply H. simpl in Hj. lia.
  - intros race pref w trials H.
    destruct (try_models_returned _ _ H) as [replies [G [S P]]].
    split; [|split; [|split]].
    + unfold llm.pick_winner in P.
      destruct (llm.sorted_by _ _) as [|w0 rest] eqn:Hs; [discriminate|].
      inversion P; subst. now apply sorted_by_head in Hs.
    + clear P H. revert replies trials G S.
      induction race as [|mp race IH]; intros [|r replies] [|t trials] G S;
        try discriminate; [reflexivity|].
      simpl in G, S. inversion G as [[Hr Hrest]]. inversion S as [[Ht Htrials]].
      simpl. f_equal; [|now apply (IH replies)].
      apply call_model_id in Hr. apply score_reply_model in Ht as [Hm _]. congruence.
    + intros t Ht.
      destruct (map_eq_In _ _ _ _ (eq_sym S) t Ht) as [r [_ E]].
      symmetry in E. now apply score_reply_model in E.
    + now exists replies.
  - intros race pref mp e Hin Hr. unfold llm.try_models.
    destruct (@gather_raised _ (map (fun mp => llm._call_model (fst mp) (snd mp)) race) e)
      as [e' ->].
    + rewrite <- Hr. now apply (in_map (fun mp => llm._call_model (fst mp) (snd mp))).
    + now exists e'.
  - intros race pref mp d Hin Hd Hc.
    destruct (llm.try_models race pref) as [[w trials] | e'] eqn:H; [|now exists e'].
    assert (Hex : exists w trials, llm.try_models race pref = llm.Returned (w, trials))
      by (now exists w, trials).
    apply Hiff in Hex as [_ Hall]. destruct (Hall mp Hin) as [d' [t [Hd' Hc']]].
    congruence.
  - exact Hiff.
Qed.

(** C7.  The winner a race returns is the head of its trials sorted by the
    policy's key: one of the trials, and under "fastest" no trial beats it
    in (score descending, latency ascending, cost ascending), under any
    other policy none in (score descending, cost ascending, latency
    ascending); winner selection itself is a function of the trial list and
    the policy alone; on the example of the specification, as a trial list
    and as a race of three providers with these scores, costs and latencies,
    the winner under "cheapest" is the second trial. *)
Theorem winner_is_lexicographic_minimum :
  (forall race pref w trials,
     llm.try_models race pref = llm.Returned (w, trials) ->
     llm.pick_winner pref trials = Some w
     /\ In w trials
     /\ (pref = L "fastest" -> forall t, In t trials -> no_worse_fastest w t)
     /\ (pref <> L "fastest" -> forall t, In t trials -> no_worse_cheapest w t))
  /\ (forall results, results <> [] ->
     exists w, llm.pick_winner (L "cheapest") results = Some w /\ In w results /\
               forall t, In t results -> no_worse_cheapest w t)
  /\ (forall results, results <> [] ->
     exists w, llm.pick_winner (L "fastest") results = Some w /\ In w results /\
               forall t, In t results -> no_worse_fastest w t)
  /\ llm.pick_winner (L "cheapest") example_trials = nth_error example_trials 1
  /\ (exists w trials,
        llm.try_models example_race (L "cheapest") = llm.Returned (w, trials)
        /\ map (fun t => (llm.score t, llm.cost_usd t, llm.latency_ms t)) trials
           = map (fun t => (llm.score t, llm.cost_usd t, llm.latency_ms t)) example_trials
        /\ nth_error trials 1 = Some w).
Proof.
  split; [|split; [|split; [|split]]].
  - intros race pref w trials H.
    destruct (try_models_returned _ _ H) as [replies [_ [_ P]]].
    assert (Hne : trials <> []) by (intros ->; discriminate).
    destruct (pick_winner_minimal pref Hne) as [w' [Hw [Hin Hmin]]].
    rewrite P in Hw. inversion Hw; subst w'.
    split; [exact P | split; [exact Hin | split]].
    + intros -> t Ht. specialize (Hmin t Ht).
      apply not_true_iff_false in Hmin. rewrite key_ltb_lex in Hmin.
      unfold llm.sort_key in Hmin. simpl in Hmin.
      unfold no_worse_fastest. lia.
    + intros Hp t Ht. specialize (Hmin t Ht).
      apply not_true_iff_false in Hmin. rewrite key_ltb_lex in Hmin.
      unfold llm.sort_key in Hmin.
      destruct (text_eqb pref (L "fastest")) eqn:E;
        [apply text_eqb_true in E; contradiction|].
      simpl in Hmin. unfold no_worse_cheapest. lia.
  - intros results Hne.
    destruct (pick_winner_minimal (L "cheapest") Hne) as [w [Hw [Hin Hmin]]].
    exists w. split; [exact Hw | split; [exact Hin|]].
    intros t Ht. specialize (Hmin t Ht).
    apply not_true_iff_false in Hmin. rewrite key_ltb_lex in Hmin.
    unfold llm.sort_key in Hmin. simpl in Hmin.
    unfold no_worse_cheapest. lia.
  - intros results Hne.
    destruct (pick_winner_minimal (L "fastest") Hne) as [w [Hw [Hin Hmin]]].
    exists w. split; [exact Hw | split; [exact Hin|]].
    intros t Ht. specialize (Hmin t Ht).
    apply not_true_iff_false in Hmin. rewrite key_ltb_lex in Hmin.
    unfold llm.sort_key in Hmin. simpl in Hmin.
    unfold no_worse_fastest. lia.
  - vm_compute. reflexivity.
  - eexists _, _. split; [vm_compute; reflexivity|]. split; reflexivity.
Qed.

(** ** The execution and repair pipeline *)

Section Pipeline.

Variable W : Type.
Variable build_messages : text -> text -> list qs.message.
Variable providers : list qs.message -> W -> list (settings.model * llm.provider) * W.
Variable run_sql : text -> W -> llm.result qs.table * W.
Variable get_data_end_date : text -> W -> option text * W.
Variable log_run : qs.payload -> W -> W.

Local Abbreviation run_query := (qs.run_query build_messages providers run_sql get_data_end_date log_run).
Local Abbreviation trace_of := (qs.trace_of build_messages providers run_sql get_data_end_date log_run).

Local Abbreviation try_models_io := (qs.try_models_io providers).
Local Abbreviation run_sql_io := (qs.run_sql_io run_sql).
Local Abbreviation log_run_io := (qs.log_run_io log_run).

Lemma bind_run (A B : Type) (m : qs.M W A) (f : A -> qs.M W B) (s : W * list qs.event) :
  qs.bind m f s =
  match m s with
  | (llm.Returned a, s') => f a s'
  | (llm.Raised e, s') => (llm.Raised e, s')
  end.
Proof. reflexivity. Qed.

Lemma of_result_run (A : Type) (r : llm.result A) (s : W * list qs.event) :
  qs.of_result r s = (r, s).
Proof. destruct r; reflexivity. Qed.

Lemma try_models_io_run (msgs : list qs.message) (pref : text) (w : W) (tr : list qs.event) :
  try_models_io msgs pref (w, tr)
  = (llm.try_models (fst (providers msgs w)) pref,
     (snd (providers msgs w), tr ++ [qs.Race msgs])).
Proof.
  unfold qs.try_models_io, qs.bind, qs.emit, qs.lift. cbn [fst snd].
  destruct (providers msgs w) as [race w']. now rewrite of_result_run.
Qed.

Lemma run_sql_io_run (s : text) (w : W) (tr : list qs.event) :
  run_sql_io s (w, tr)
  = (fst (run_sql s w), (snd (run_sql s w), tr ++ [qs.Exec s])).
Proof.
  unfold qs.run_sql_io, qs.bind, qs.emit, qs.lift. cbn [fst snd].
  destruct (run_sql s w) as [r w']. now rewrite of_result_run.
Qed.

Lemma repair_known_errors_io_run (s e : text) (w : W) (tr : list qs.event) :
  qs.repair_known_errors_io s e (w, tr)
  = (llm.Returned (gr.repair_known_errors s e), (w, tr ++ [qs.KnownRepair s e])).
Proof. reflexivity. Qed.

Lemma log_run_io_run (p : qs.payload) (w : W) (tr : list qs.event) :
  log_run_io p (w, tr) = (llm.Returned tt, (log_run p w, tr ++ [qs.Logged p])).
Proof. reflexivity. Qed.

Lemma lift_run (A : Type) (f : W -> A * W) (w : W) (tr : list qs.event) :
  qs.lift f (w, tr) = (llm.Returned (fst (f w)), (snd (f w), tr)).
Proof. unfold qs.lift. cbn [fst snd]. now destruct (f w). Qed.

Lemma catch_run (A : Type) (m : qs.M W A) (s : W * list qs.event) :
  qs.catch m s = (llm.Returned (fst (m s)), snd (m s)).
Proof. unfold qs.catch. now destruct (m s). Qed.

Lemma usable_some (c r : text) : qs.usable (Some c) = Some r -> r = c.
Proof. unfold qs.usable. destruct (_ && _); congruence. Qed.

Ltac run_step :=
  repeat (progress (rewrite ?bind_run, ?catch_run, ?try_models_io_run, ?run_sql_io_run,
                      ?repair_known_errors_io_run, ?log_run_io_run, ?lift_run;
                    cbn [fst snd app qs.ret qs.raise])).

(** What the [except] branch adds to the trace. *)
Lemma repair_trace (msgs : list qs.message) (sid pref : text) (d : option text)
    (s1 e : text) (w : W) (tr : list qs.event) :
  let out := qs.repair providers run_sql msgs sid pref d s1 e (w, tr) in
  exists tail,
    snd (snd out) = tr ++ tail
    /\ match fst out with
       | llm.Returned _ => forall p, after_first sid msgs d s1 (tail ++ [qs.Logged p])
       | llm.Raised _ => after_first sid msgs d s1 tail
       end.
Proof.
  unfold qs.repair. run_step.
  destruct (qs.usable (gr.repair_known_errors s1 e)) as [f|] eqn:Hu.
  - run_step. destruct (fst (run_sql _ _)) as [t | e'] eqn:Hr; cbn [fst snd].
    + eexists [_; _]. rewrite <- app_assoc. split; [reflexivity|].
      intros p; apply AF_known; auto; right; eauto.
    + eexists [_; _]. rewrite <- app_assoc. split; [reflexivity|].
      apply AF_known; auto. now left.
  - run_step. destruct (llm.try_models _ pref) as [repaired | e'] eqn:Hrace; cbn [fst snd].
    + destruct (qs.usable (Some _)) as [r|] eqn:Hr.
      * pose proof (usable_some _ Hr) as ->. run_step.
        destruct (fst (run_sql _ _)) as [t | e''] eqn:Hx; cbn [fst snd].
        -- eexists [_; _; _]. rewrite <- !app_assoc. split; [reflexivity|].
           intros p; apply AF_race_exec; auto; right; eauto.
        -- eexists [_; _; _]. rewrite <- !app_assoc. split; [reflexivity|].
           apply AF_race_exec; auto. now left.
      * cbn [fst snd]. eexists [_; _]. rewrite <- app_assoc. split; [reflexivity|].
        now apply AF_race.
    + eexists [_; _]. rewrite <- app_assoc. split; [reflexivity|]. now apply AF_race.
Qed.

Lemma run_query_trace (store_id user_id question winner_pref : text) (w : W) :
  pipeline_trace store_id (trace_of store_id user_id question winner_pref w).
Proof.
  unfold qs.trace_of, qs.run_query. run_step.
  destruct (llm.try_models _ winner_pref) as [race | e] eqn:Hrace; [|apply PT_race].
  set (sql := gr.or_empty (gr.extract_sql (llm.text_ (fst race)))).
  destruct (gr.nonempty sql) eqn:H1; cbn [negb]; [|apply PT_race].
  destruct (gr.looks_select_only sql) eqn:H2; cbn [negb]; [|apply PT_race].
  destruct (gr.contains_bad sql) eqn:H3; [apply PT_race|].
  destruct (gr.mentions_allowed_objects sql) eqn:H4; cbn [negb]; [|apply PT_race].
  destruct (gr.columns_exist sql) as [b col_msg] eqn:H5.
  destruct b; [|apply PT_race].
  assert (Hv : qs.validator sql = true).
  { unfold qs.validator, qs.passes_three. now rewrite H1, H2, H3, H4, H5. }
  run_step.
  set (d := fst (get_data_end_date store_id _)).
  set (w1 := snd (get_data_end_date store_id _)).
  destruct (fst (run_sql (qs.rewrite sql store_id d) w1)) as [t | e] eqn:Hfirst.
  - run_step. apply PT_exec; [exact Hv | apply AF_done].
  - pose proof (repair_trace (build_messages store_id question) store_id winner_pref d
                  (qs.rewrite sql store_id d) e
                  (snd (run_sql (qs.rewrite sql store_id d) w1))
                  [qs.Race (build_messages store_id question);
                   qs.Exec (qs.rewrite sql store_id d)]) as [tail [Ht Hs]].
    cbv zeta in Ht, Hs.
    destruct (qs.repair _ _ _ _ _ _ _ _ _) as [[done | e'] [w2 tr2]]; cbn [fst snd] in *.
    + run_step. subst tr2. rewrite <- app_assoc. cbn [app].
      apply PT_exec; [exact Hv | apply Hs].
    + subst tr2. cbn [app]. apply PT_exec; [exact Hv | exact Hs].
Qed.

End Pipeline.

Lemma usable_passes (c : option text) (r : text) :
  qs.usable c = Some r -> gr.nonempty r = true /\ qs.passes_three r = true.
Proof.
  unfold qs.usable. destruct c as [c|]; [|discriminate].
  destruct (gr.nonempty c && qs.passes_three c) eqn:E; [|discriminate].
  intros H. inversion H; subst. now apply andb_true_iff in E.
Qed.


Lemma validator_passes (t : text) :
  qs.validator t = true -> gr.nonempty t = true /\ qs.passes_three t = true.
Proof.
  unfold qs.validator. intros H.
  apply andb_true_iff in H as [H _]. now apply andb_true_iff in H.
Qed.

(** In the calm world the text that reaches the database fails the shape
    check: the rewrites were appended after the accepted trailing terminator. *)
Lemma rewritten_text_is_not_validated : ~ executes_only_validated_text.
Proof.
  intros H.
  specialize (H calm_world.W calm_world.build_messages calm_world.providers
                calm_world.run_sql calm_world.get_data_end_date calm_world.log_run
                (L "S001") (L "u1") (L "all stores") (L "cheapest") tt
                (L "select * from stores; WHERE store_id = 'S001' LIMIT 200")).
  assert (Hin : In (L "select * from stores; WHERE store_id = 'S001' LIMIT 200")
                   (qs.executed calm_world.trace)).
  { vm_compute. left. reflexivity. }
  apply H in Hin. vm_compute in Hin. discriminate.
Qed.

(** C1, as the code has it.  Every text sent to the database is the result
    of the three rewrites applied to a non-empty candidate that, before the
    rewrites, passed the shape, block-list and allow-list checks; the first
    text sent comes from a candidate that passed the column check as well. *)
Theorem executed_text_is_rewritten_checked_text (W : Type) build_messages providers
    run_sql get_data_end_date log_run (store_id user_id question winner_pref : text)
    (w : W) :
  let tr := @qs.trace_of W build_messages providers run_sql get_data_end_date log_run
                         store_id user_id question winner_pref w in
  (forall s, In s (qs.executed tr) ->
     exists t d, s = qs.rewrite t store_id d
                 /\ gr.nonempty t = true /\ qs.passes_three t = true)
  /\ (forall s rest, qs.executed tr = s :: rest ->
        exists t d, s = qs.rewrite t store_id d /\ qs.validator t = true).
Proof.
  intros tr.
  pose proof (run_query_trace build_messages providers run_sql get_data_end_date log_run
                store_id user_id question winner_pref w) as H.
  fold tr in H. clearbody tr.
  inversion H as [m | m sql d tail Hv Ha]; subst.
  - split; [intros s [] | intros s rest Hx; discriminate].
  - split.
    + intros s Hin. cbn in Hin. destruct Hin as [<- | Hin].
      * exists sql, d. split; [reflexivity | now apply validator_passes].
      * inversion Ha as [p | e f tl Hu Hl | e Hu | e r tl Hu Hr Hl]; subst;
          try (destruct Hl as [-> | [p ->]]); cbn in Hin; try contradiction;
          repeat (destruct Hin as [Hin | Hin]; try contradiction); subst.
        all: try (exists f, d; split; [reflexivity | now apply usable_passes in Hu]).
        all: exists r, d; split; [reflexivity | now apply usable_passes in Hr].
    + intros s rest Hx. cbn in Hx. inversion Hx; subst.
      exists sql, d. split; [reflexivity | exact Hv].
Qed.

(** ** Store-scope injection *)

(** C3.  What the code does with a WHERE clause followed by ORDER BY: the
    new predicate is glued to the keyword, and the parentheses close after
    the ORDER BY clause, not after the original predicate.  Without white
    space after WHERE the predicate is set off, and a trailing LIMIT still
    ends up inside the parentheses.  Without a WHERE the new clause goes
    before the first trailing keyword, or at the end. *)
Theorem store_filter_wraps_the_whole_tail :
  gr.ensure_store_filter
    (L "SELECT * FROM stores WHERE region = 'x' ORDER BY region") (L "S001")
  = L "SELECT * FROM stores WHEREstore_id = 'S001' AND (region = 'x' ORDER BY region)"
  /\ gr.ensure_store_filter
       (L "SELECT * FROM stores WHERE(region = 'x' OR region = 'y') LIMIT 5") (L "S001")
     = L "SELECT * FROM stores WHERE store_id = 'S001' AND ((region = 'x' OR region = 'y') LIMIT 5)"
  /\ gr.ensure_store_filter (L "SELECT * FROM v_sales_daily s ORDER BY s.date") (L "S001")
     = L "SELECT * FROM v_sales_daily s WHERE s.store_id = 'S001' ORDER BY s.date"
  /\ gr.ensure_store_filter (L "SELECT * FROM stores") (L "S001")
     = L "SELECT * FROM stores WHERE store_id = 'S001'".
Proof. repeat split; vm_compute; reflexivity. Qed.

(** ** Result-size capping and the rewrite sequence *)

Lemma lstrip_idem (s : text) : lstrip (lstrip s) = lstrip s.
Proof.
  induction s as [|c s IH]; simpl; [reflexivity|].
  destruct (is_space c) eqn:Hc; [exact IH|]. simpl. now rewrite Hc.
Qed.

Lemma rstrip_idem (s : text) : rstrip (rstrip s) = rstrip s.
Proof. unfold rstrip. now rewrite rev_involutive, lstrip_idem. Qed.

Lemma rstrip_snoc (x : text) (c : ascii) :
  is_space c = false -> rstrip (x ++ [c]) = x ++ [c].
Proof.
  intros Hc. unfold rstrip. rewrite rev_app_distr. simpl. rewrite Hc.
  simpl. now rewrite rev_involutive.
Qed.


Lemma appended_limit_is_stripped (x : text) :
  rstrip (x ++ L " LIMIT 200") = x ++ L " LIMIT 200".
Proof.
  change (x ++ L " LIMIT 200") with (x ++ L " LIMIT 20" ++ ["0"%char]).
  rewrite app_assoc. now apply rstrip_snoc.
Qed.



(** ** Where a pattern can match *)

Section RunFacts.

Lemma In_run_Seq (a b : re) (st out : mstate) :
  In out (run (Seq a b) st) <-> exists mid, In mid (run a st) /\ In out (run b mid).
Proof. simpl. apply in_flat_map. Qed.

Lemma In_run_Chr (p : ascii -> bool) (st out : mstate) :
  In out (run (Chr p) st) <->
  exists c rest, ahead st = c :: rest /\ p c = true
                 /\ out = MState (c :: before st) rest (caps st).
Proof.
  simpl. destruct (ahead st) as [|c rest].
  - split; [intros [] | intros [c [rest [H _]]]; discriminate].
  - destruct (p c) eqn:Hp; simpl.
    + split.
      * intros [<- | []]. now exists c, rest.
      * intros [c' [rest' [H [_ ->]]]]. inversion H; subst. now left.
    + split; [intros [] | intros [c' [rest' [H [Hp' _]]]]].
      inversion H; subst. congruence.
Qed.

Lemma In_run_WordB (st out : mstate) :
  In out (run WordB st) <-> at_boundary st = true /\ out = st.
Proof.
  simpl. destruct (at_boundary st); simpl.
  - split; [intros [<- | []]; auto | intros [_ ->]; now left].
  - split; [intros [] | intros [H _]; discriminate].
Qed.




Lemma flat_map_unit (A : Type) (l : list A) : flat_map (fun x => [x]) l = l.
Proof. induction l; simpl; congruence. Qed.


End RunFacts.

(** ** The store predicate *)

Section StorePredicate.

Lemma match_here_some (r : re) (bef ah : text) :
  match_here r bef ah <> None <-> exists out, In out (run r (MState bef ah [])).
Proof.
  unfold match_here. destruct (run r (MState bef ah [])) as [|st l].
  - split; [congruence | intros [out []]].
  - split; [intros _; exists st; now left | congruence].
Qed.

(** A successful search matched at some position. *)
Lemma search_from_sound (r : re) (ah bef : text) :
  search_from r bef ah <> None ->
  exists pre ah', ah = pre ++ ah' /\ match_here r (rev pre ++ bef) ah' <> None.
Proof.
  revert bef. induction ah as [|c ah IH]; intros bef; simpl.
  - destruct (match_here r bef []) eqn:E; [|congruence].
    intros _. exists [], []. split; [reflexivity | simpl; congruence].
  - destruct (match_here r bef (c :: ah)) eqn:E.
    + intros _. exists [], (c :: ah). split; [reflexivity | simpl; congruence].
    + intros H. apply IH in H as [pre [ah' [-> Hm]]].
      exists (c :: pre), ah'. split; [reflexivity|].
      simpl. now rewrite <- app_assoc.
Qed.

Lemma found_iff (r : re) (t : text) :
  found r t = true <->
  exists pre ah, t = pre ++ ah /\ match_here r (rev pre) ah <> None.
Proof.
  split.
  - intros H. unfold found, search in H.
    destruct (search_from r [] t) eqn:E; [|discriminate].
    destruct (@search_from_sound r t []) as [pre [ah [-> Hm]]]; [congruence|].
    exists pre, ah. rewrite app_nil_r in Hm. auto.
  - intros [pre [ah [-> Hm]]]. now apply found_at.
Qed.



End StorePredicate.

(** ** Store predicates survive capping and are there after injection *)

Section Scoped.












End Scoped.



(** ** Matches and their surroundings *)

Section Transport.

Lemma spans_refl (st : mstate) : spans st [] st.
Proof. split; reflexivity. Qed.

Lemma spans_trans (a b c : mstate) (m1 m2 : text) :
  spans a m1 b -> spans b m2 c -> spans a (m1 ++ m2) c.
Proof.
  intros [H1 H2] [H3 H4]. split.
  - rewrite H1, H3. now rewrite app_assoc.
  - rewrite H4, H2, rev_app_distr. now rewrite app_assoc.
Qed.

Lemma run_Star_loop (a : re) (st : mstate) :
  run (Star a) st = star_loop a (length (ahead st)) st.
Proof. reflexivity. Qed.

Lemma run_Lazy_loop (a : re) (st : mstate) :
  run (Lazy a) st = lazy_loop a (length (ahead st)) st.
Proof. reflexivity. Qed.

Lemma star_loop_self (a : re) (fuel : nat) (st : mstate) : In st (star_loop a fuel st).
Proof. destruct fuel; simpl; [now left|]. apply in_or_app. right. now left. Qed.

Lemma lazy_loop_self (a : re) (fuel : nat) (st : mstate) : In st (lazy_loop a fuel st).
Proof. destruct fuel; simpl; now left. Qed.

Lemma keeps_boundaries_left (bef m1 m2 rest bef' rest' : text) :
  keeps_boundaries bef (m1 ++ m2) rest bef' rest' ->
  keeps_boundaries bef m1 (m2 ++ rest) bef' (m2 ++ rest').
Proof.
  intros H x y E. subst m1. rewrite !(app_assoc y).
  rewrite <- !app_assoc. intros Hb.
  specialize (H x (y ++ m2)). rewrite <- !app_assoc in H. apply H; [reflexivity | exact Hb].
Qed.

Lemma keeps_boundaries_right (bef m1 m2 rest bef' rest' : text) :
  keeps_boundaries bef (m1 ++ m2) rest bef' rest' ->
  keeps_boundaries (rev m1 ++ bef) m2 rest (rev m1 ++ bef') rest'.
Proof.
  intros H x y E. subst m2. intros Hb.
  specialize (H (m1 ++ x) y). rewrite rev_app_distr, <- !app_assoc in H.
  apply H; [now rewrite app_assoc | exact Hb].
Qed.

Lemma In_run_Alt (a b : re) (st out : mstate) :
  In out (run (Alt a b) st) <-> In out (run a st) \/ In out (run b st).
Proof. simpl. apply in_app_iff. Qed.

Lemma In_run_Group (n : nat) (a : re) (st out : mstate) :
  In out (run (Group n a) st) <->
  exists st', In st' (run a st)
              /\ out = MState (before st') (ahead st') ((n, consumed st st') :: caps st').
Proof.
  simpl. rewrite in_map_iff. split; intros [st' [H1 H2]]; exists st'; auto.
Qed.

Lemma mstate_eta (st : mstate) (b a : text) :
  before st = b -> ahead st = a -> st = MState b a (caps st).
Proof. destruct st; simpl; intros -> ->; reflexivity. Qed.

(** A match is a matter of the text it passes and of the word boundaries at
    its positions: a state that a run reaches after passing [m] is reached
    again, after passing [m], in any surroundings that keep the boundaries
    of [m]. *)
Lemma run_transport (r : re) :
  forall st out, In out (run r st) ->
  exists m, spans st m out /\
    forall bef' rest' cs',
      keeps_boundaries (before st) m (ahead out) bef' rest' ->
      exists out', In out' (run r (MState bef' (m ++ rest') cs')) /\ moved m bef' rest' out'.
Proof.
  induction r as [| p | a IHa b IHb | a IHa b IHb | a IHa | a IHa | | n a IHa];
    intros st out H.
  - destruct H as [<- | []]. exists []. split; [apply spans_refl|].
    intros bef' rest' cs' _. eexists. split; [left; reflexivity | split; reflexivity].
  - apply In_run_Chr in H as [c [rest [Ha [Hp ->]]]]. exists [c]. split.
    + split; simpl; [exact Ha | reflexivity].
    + intros bef' rest' cs' _. eexists. split.
      * apply In_run_Chr. exists c, rest'.
        split; [reflexivity | split; [exact Hp | reflexivity]].
      * split; reflexivity.
  - apply In_run_Seq in H as [mid [H1 H2]].
    destruct (IHa _ _ H1) as [m1 [S1 T1]]. destruct (IHb _ _ H2) as [m2 [S2 T2]].
    exists (m1 ++ m2). split; [eapply spans_trans; eauto|].
    intros bef' rest' cs' K.
    destruct (T1 bef' (m2 ++ rest') cs') as [mid' [Hm1 [Mb Ma]]].
    { destruct S2 as [E2 _]. rewrite E2. now apply keeps_boundaries_left. }
    destruct (T2 (rev m1 ++ bef') rest' (caps mid')) as [out' [Ho [Ob Oa]]].
    { destruct S1 as [_ E1]. rewrite E1. now apply keeps_boundaries_right. }
    exists out'. split.
    + apply In_run_Seq. exists mid'. split; [now rewrite <- app_assoc|].
      now rewrite (mstate_eta mid' Mb Ma).
    + split; [|exact Oa]. now rewrite Ob, rev_app_distr, <- app_assoc.
  - apply In_run_Alt in H as [H | H].
    + destruct (IHa _ _ H) as [m [S T]]. exists m. split; [exact S|].
      intros bef' rest' cs' K. destruct (T bef' rest' cs' K) as [out' [Ho M]].
      exists out'. split; [apply In_run_Alt; now left | exact M].
    + destruct (IHb _ _ H) as [m [S T]]. exists m. split; [exact S|].
      intros bef' rest' cs' K. destruct (T bef' rest' cs' K) as [out' [Ho M]].
      exists out'. split; [apply In_run_Alt; now right | exact M].
  - rewrite run_Star_loop in H.
    assert (Loop : forall fuel st out, In out (star_loop a fuel st) ->
              exists m, spans st m out /\
                forall bef' rest' cs' fuel',
                  length m <= fuel' ->
                  keeps_boundaries (before st) m (ahead out) bef' rest' ->
                  exists out', In out' (star_loop a fuel' (MState bef' (m ++ rest') cs'))
                               /\ moved m bef' rest' out').
    { clear st out H. intros fuel.
      assert (Self : forall st : mstate,
                exists m, spans st m st /\
                  forall bef' rest' cs' fuel',
                    length m <= fuel' ->
                    keeps_boundaries (before st) m (ahead st) bef' rest' ->
                    exists out', In out' (star_loop a fuel' (MState bef' (m ++ rest') cs'))
                                 /\ moved m bef' rest' out').
      { intros st. exists []. split; [apply spans_refl|].
        intros bef' rest' cs' fuel' _ _. eexists.
        split; [apply star_loop_self | split; reflexivity]. }
      induction fuel as [|fuel IHf]; intros st out H; simpl in H.
      - destruct H as [<- | []]. apply Self.
      - apply in_app_or in H as [H | [<- | []]]; [|apply Self].
        apply in_flat_map in H as [mid [H1 H2]].
        destruct (progress st mid) eqn:P; [|contradiction].
        destruct (IHa _ _ H1) as [m1 [S1 T1]]. destruct (IHf _ _ H2) as [m2 [S2 T2]].
        exists (m1 ++ m2). split; [eapply spans_trans; eauto|].
        intros bef' rest' cs' fuel' Hf K.
        assert (Hm1 : 1 <= length m1).
        { unfold progress in P. apply Nat.ltb_lt in P. destruct S1 as [E _].
          rewrite E, length_app in P. lia. }
        rewrite length_app in Hf. destruct fuel' as [|f2]; [lia|].
        destruct (T1 bef' (m2 ++ rest') cs') as [mid' [Hmid [Mb Ma]]].
        { destruct S2 as [E2 _]. rewrite E2. now apply keeps_boundaries_left. }
        destruct (T2 (rev m1 ++ bef') rest' (caps mid') f2) as [out' [Ho [Ob Oa]]]; [lia| |].
        { destruct S1 as [_ E1]. rewrite E1. now apply keeps_boundaries_right. }
        exists out'. split.
        + cbn [star_loop]. apply in_or_app. left. apply in_flat_map.
          exists mid'. split; [now rewrite <- app_assoc|].
          replace (progress _ mid') with true.
          * now rewrite (mstate_eta mid' Mb Ma).
          * symmetry. unfold progress. apply Nat.ltb_lt. cbn [ahead].
            rewrite Ma, !length_app. lia.
        + split; [|exact Oa]. now rewrite Ob, rev_app_distr, <- app_assoc. }
    destruct (Loop _ _ _ H) as [m [S T]]. exists m. split; [exact S|].
    intros bef' rest' cs' K. rewrite run_Star_loop. cbn [ahead].
    apply T; [rewrite length_app; lia | exact K].
  - rewrite run_Lazy_loop in H.
    assert (Loop : forall fuel st out, In out (lazy_loop a fuel st) ->
              exists m, spans st m out /\
                forall bef' rest' cs' fuel',
                  length m <= fuel' ->
                  keeps_boundaries (before st) m (ahead out) bef' rest' ->
                  exists out', In out' (lazy_loop a fuel' (MState bef' (m ++ rest') cs'))
                               /\ moved m bef' rest' out').
    { clear st out H. intros fuel.
      assert (Self : forall st : mstate,
                exists m, spans st m st /\
                  forall bef' rest' cs' fuel',
                    length m <= fuel' ->
                    keeps_boundaries (before st) m (ahead st) bef' rest' ->
                    exists out', In out' (lazy_loop a fuel' (MState bef' (m ++ rest') cs'))
                                 /\ moved m bef' rest' out').
      { intros st. exists []. split; [apply spans_refl|].
        intros bef' rest' cs' fuel' _ _. eexists.
        split; [apply lazy_loop_self | split; reflexivity]. }
      induction fuel as [|fuel IHf]; intros st out H; simpl in H.
      - destruct H as [<- | []]. apply Self.
      - destruct H as [<- | H]; [apply Self|].
        apply in_flat_map in H as [mid [H1 H2]].
        destruct (progress st mid) eqn:P; [|contradiction].
        destruct (IHa _ _ H1) as [m1 [S1 T1]]. destruct (IHf _ _ H2) as [m2 [S2 T2]].
        exists (m1 ++ m2). split; [eapply spans_trans; eauto|].
        intros bef' rest' cs' fuel' Hf K.
        assert (Hm1 : 1 <= length m1).
        { unfold progress in P. apply Nat.ltb_lt in P. destruct S1 as [E _].
          rewrite E, length_app in P. lia. }
        rewrite length_app in Hf. destruct fuel' as [|f2]; [lia|].
        destruct (T1 bef' (m2 ++ rest') cs') as [mid' [Hmid [Mb Ma]]].
        { destruct S2 as [E2 _]. rewrite E2. now apply keeps_boundaries_left. }
        destruct (T2 (rev m1 ++ bef') rest' (caps mid') f2) as [out' [Ho [Ob Oa]]]; [lia| |].
        { destruct S1 as [_ E1]. rewrite E1. now apply keeps_boundaries_right. }
        exists out'. split.
        + cbn [lazy_loop]. right. apply in_flat_map.
          exists mid'. split; [now rewrite <- app_assoc|].
          replace (progress _ mid') with true.
          * now rewrite (mstate_eta mid' Mb Ma).
          * symmetry. unfold progress. apply Nat.ltb_lt. cbn [ahead].
            rewrite Ma, !length_app. lia.
        + split; [|exact Oa]. now rewrite Ob, rev_app_distr, <- app_assoc. }
    destruct (Loop _ _ _ H) as [m [S T]]. exists m. split; [exact S|].
    intros bef' rest' cs' K. rewrite run_Lazy_loop. cbn [ahead].
    apply T; [rewrite length_app; lia | exact K].
  - apply In_run_WordB in H as [Hb ->]. exists []. split; [apply spans_refl|].
    intros bef' rest' cs' K. exists (MState bef' rest' cs'). split; [|split; reflexivity].
    apply In_run_WordB. split; [|reflexivity].
    unfold at_boundary in *. cbn [before ahead app].
    apply (K [] [] eq_refl). exact Hb.
  - apply In_run_Group in H as [st' [H ->]].
    destruct (IHa _ _ H) as [m [S T]]. exists m. split; [exact S|].
    intros bef' rest' cs' K. destruct (T bef' rest' cs' K) as [out' [Ho [Ob Oa]]].
    eexists. split; [apply In_run_Group; exists out'; split; [exact Ho | reflexivity]|].
    split; [exact Ob | exact Oa].
Qed.

Lemma head_word_app_ne (x y : text) : x <> [] -> head_word (x ++ y) = head_word x.
Proof. destruct x; [congruence | reflexivity]. Qed.

(** A pattern found in a text is found in the text put between two others,
    where the text does not touch a word character at an end at which it
    has a word character itself. *)
Lemma found_embedded (P : re) (X a Y : text) :
  (X = [] \/ head_word a = false) -> (Y = [] \/ head_word (rev a) = false) ->
  found P a = true -> found P (X ++ a ++ Y) = true.
Proof.
  intros HX HY H. apply found_iff in H as [pre [ah [Ea Hm]]].
  apply match_here_some in Hm as [out Hin].
  destruct (run_transport _ _ _ Hin) as [m [[S1 S2] T]]. cbn [ahead before] in S1, S2, T.
  destruct (T (rev pre ++ rev X) (ahead out ++ Y) []) as [out' [Ho _]].
  { intros x y E Hb. rewrite (app_assoc (rev x)), (app_assoc y).
    assert (Ha : a = pre ++ x ++ y ++ ahead out)
      by (now rewrite Ea, S1, E, <- app_assoc).
    destruct (rev x ++ rev pre) as [|c l] eqn:Eu; destruct (y ++ ahead out) as [|c' l'] eqn:Ev.
    - discriminate.
    - apply app_eq_nil in Eu as [Ex Ep].
      assert (x = []) by (now rewrite <- (rev_involutive x), Ex).
      assert (pre = []) by (now rewrite <- (rev_involutive pre), Ep).
      subst x pre. cbn [app] in Ha.
      destruct HX as [-> | HX]; [exact Hb|].
      rewrite Ha in HX. cbn [head_word xorb] in Hb, HX. congruence.
    - rewrite app_nil_r in Ha.
      assert (Hr : rev a = c :: l) by (now rewrite Ha, rev_app_distr).
      destruct HY as [-> | HY]; [exact Hb|].
      rewrite Hr in HY. cbn [head_word xorb] in Hb, HY.
      rewrite HY in Hb. discriminate.
    - exact Hb. }
  apply found_iff. exists (X ++ pre), (m ++ ahead out ++ Y). split.
  - rewrite Ea, S1, <- !app_assoc. reflexivity.
  - apply match_here_some. exists out'. now rewrite rev_app_distr.
Qed.

Lemma is_word_lower (c : ascii) : is_word (lower_char c) = is_word c.
Proof. destruct c as [[] [] [] [] [] [] [] []]; reflexivity. Qed.

Lemma head_word_lower (x : text) : head_word (lower x) = head_word x.
Proof. destruct x as [|c x]; [reflexivity | apply is_word_lower]. Qed.

Lemma lower_rev (x : text) : lower (rev x) = rev (lower x).
Proof. unfold lower. apply map_rev. Qed.

End Transport.

(** ** Substitution along a text *)

Section Substitution.

Variable r : re.
Variable repl : text.

Lemma sub_from_skipping (x bef rest : text) :
  sub_from r repl (length x) bef (x ++ rest) = sub_from r repl 0 (rev x ++ bef) rest.
Proof.
  revert bef. induction x as [|c x IH]; intros bef; [reflexivity|].
  cbn [length app sub_from]. rewrite IH. cbn [rev]. now rewrite <- app_assoc.
Qed.

(** At a match that passes [m], the replacement is written and the scan
    goes on behind [m]. *)
Lemma sub_from_hit (bef m rest : text) (st : mstate) :
  match_here r bef (m ++ rest) = Some st -> ahead st = rest -> m <> [] ->
  sub_from r repl 0 bef (m ++ rest) = repl ++ sub_from r repl 0 (rev m ++ bef) rest.
Proof.
  intros H Ha Hm. destruct m as [|c m]; [congruence|].
  cbn [app] in *. cbn [sub_from]. rewrite H. cbv zeta.
  replace (length (c :: m ++ rest) - length (ahead st)) with (S (length m))
    by (rewrite Ha; cbn [length]; rewrite length_app; lia).
  f_equal. rewrite sub_from_skipping. cbn [rev]. now rewrite <- app_assoc.
Qed.

(** A stretch with no match at any of its positions is copied. *)
Lemma sub_from_pass (x tail bef : text) :
  (forall x1 c x2, x = x1 ++ c :: x2 ->
                   match_here r (rev x1 ++ bef) (c :: x2 ++ tail) = None) ->
  sub_from r repl 0 bef (x ++ tail) = x ++ sub_from r repl 0 (rev x ++ bef) tail.
Proof.
  revert bef. induction x as [|c x IH]; intros bef H; [reflexivity|].
  cbn [app sub_from].
  pose proof (H [] c x eq_refl) as H0. cbn [rev app] in H0. rewrite H0.
  f_equal. rewrite IH; [cbn [rev]; now rewrite <- app_assoc|].
  intros x1 c1 x2 E. specialize (H (c :: x1) c1 x2). cbn [rev app] in H.
  rewrite <- app_assoc in H. apply H. now rewrite E.
Qed.

Lemma sub_from_end (x bef : text) :
  (forall x1 x2, x = x1 ++ x2 -> match_here r (rev x1 ++ bef) x2 = None) ->
  sub_from r repl 0 bef x = x.
Proof.
  revert bef. induction x as [|c x IH]; intros bef H.
  - cbn [sub_from]. pose proof (H [] [] eq_refl) as H0. cbn [rev app] in H0.
    now rewrite H0.
  - cbn [sub_from]. pose proof (H [] (c :: x) eq_refl) as H0. cbn [rev app] in H0.
    rewrite H0. f_equal. apply IH.
    intros x1 x2 E. specialize (H (c :: x1) x2). cbn [rev app] in H.
    rewrite <- app_assoc in H. apply H. now rewrite E.
Qed.

End Substitution.

(** ** Literals under [re.I] behind a word boundary *)

Section Literals.

Lemma run_seqs_cons (r : re) (rs : list re) (st : mstate) :
  run (seqs (r :: rs)) st = flat_map (run (seqs rs)) (run r st).
Proof.
  destruct rs as [|r' rs]; [|reflexivity].
  cbn [seqs]. change (run Eps) with (fun s : mstate => [s]).
  now rewrite flat_map_unit.
Qed.

Lemma In_run_lit_ci (l : text) (st out : mstate) :
  In out (run (lit_ci l) st) <->
  exists m rest, ahead st = m ++ rest /\ lower m = lower l
                 /\ out = MState (rev m ++ before st) rest (caps st).
Proof.
  unfold lit_ci. revert st. induction l as [|x l IH]; intros st.
  - simpl. split.
    + intros [<- | []]. exists [], (ahead st). now destruct st.
    + intros [m [rest [H [Hm ->]]]]. destruct m; [|discriminate].
      left. destruct st; simpl in *. now subst.
  - assert (Hstep : In out (run (Seq (Chr (ci_chr x))
                                    (seqs (map (fun y => Chr (ci_chr y)) l))) st) <->
                    In out (run (seqs (map (fun y => Chr (ci_chr y)) (x :: l))) st)).
    { destruct l as [|y l]; [|reflexivity].
      cbn [map seqs]. change (run (Seq (Chr (ci_chr x)) Eps) st)
        with (flat_map (fun s => [s]) (run (Chr (ci_chr x)) st)).
      now rewrite flat_map_unit. }
    rewrite <- Hstep, In_run_Seq. split.
    + intros [mid [Hm Ho]]. apply In_run_Chr in Hm as [c [rest [Ha [Hc ->]]]].
      unfold ci_chr in Hc. apply ascii_eqb_true in Hc.
      apply IH in Ho as [m [rest' [Ha' [Hm ->]]]]. simpl in *. subst rest.
      exists (c :: m), rest'. simpl. rewrite Hc, Hm, <- app_assoc. auto.
    + intros [m [rest [Ha [Hm ->]]]]. destruct m as [|c m]; [discriminate|].
      simpl in Hm. inversion Hm as [[Hc Hm']].
      exists (MState (c :: before st) (m ++ rest) (caps st)). split.
      * apply In_run_Chr. exists c, (m ++ rest). unfold ci_chr.
        rewrite Hc, ascii_eqb_refl. auto.
      * apply IH. exists m, rest. simpl. rewrite <- app_assoc. auto.
Qed.

(** A literal under [re.I] matches a text equal to it up to case, in one
    way. *)
Lemma run_lit_ci_match (l o : text) (bef rest : text) (cs : list (nat * text)) :
  lower o = lower l ->
  run (lit_ci l) (MState bef (o ++ rest) cs) = [MState (rev o ++ bef) rest cs].
Proof.
  unfold lit_ci. revert o bef. induction l as [|x l IH]; intros [|y o] bef E;
    try discriminate; [reflexivity|].
  cbn [lower map] in E. injection E as Ey Eo.
  cbn [map]. rewrite run_seqs_cons. cbn [run ahead before caps app].
  replace (ci_chr x y) with true
    by (unfold ci_chr; rewrite Ey; symmetry; apply ascii_eqb_refl).
  cbn [flat_map].
  rewrite (IH o (y :: bef) Eo), app_nil_r.
  cbn [rev]. now rewrite <- app_assoc.
Qed.

Lemma match_here_in (r : re) (bef ah : text) (st : mstate) :
  match_here r bef ah = Some st -> In st (run r (MState bef ah [])).
Proof.
  unfold match_here. destruct (run r _) as [|s l]; [discriminate|].
  intros H. inversion H; subst. now left.
Qed.

Lemma startswith_lower_prefix (o rest w : text) :
  lower o = w -> startswith w (lower (o ++ rest)) = true.
Proof.
  intros <-. apply startswith_prefix. exists (lower rest). apply lower_app.
Qed.

(** A match of [\b] followed by a literal stands at a word boundary and
    begins with the literal, up to case. *)
Lemma boundary_literal (W : text) (tl : re) (bef ah : text) :
  match_here (Seq WordB (Seq (lit_ci W) tl)) bef ah <> None ->
  xorb (head_word bef) (head_word ah) = true
  /\ startswith (lower W) (lower ah) = true.
Proof.
  intros H. apply match_here_some in H as [out H].
  apply In_run_Seq in H as [m1 [H1 H]]. apply In_run_WordB in H1 as [Hb ->].
  apply In_run_Seq in H as [m2 [H2 _]].
  apply In_run_lit_ci in H2 as [o [rest [Ha [Ho _]]]]. cbn [ahead] in Ha.
  split; [exact Hb|]. rewrite Ha. now apply startswith_lower_prefix.
Qed.

Lemma boundary_literal_end (W : text) (bef ah : text) :
  match_here (Seq WordB (lit_ci W)) bef ah <> None ->
  xorb (head_word bef) (head_word ah) = true
  /\ startswith (lower W) (lower ah) = true.
Proof.
  intros H. apply match_here_some in H as [out H].
  apply In_run_Seq in H as [m1 [H1 H2]]. apply In_run_WordB in H1 as [Hb ->].
  apply In_run_lit_ci in H2 as [o [rest [Ha [Ho _]]]]. cbn [ahead] in Ha.
  split; [exact Hb|]. rewrite Ha. now apply startswith_lower_prefix.
Qed.

Lemma run_Seq (a b : re) (st : mstate) : run (Seq a b) st = flat_map (run b) (run a st).
Proof. reflexivity. Qed.

Lemma run_WordB (st : mstate) : run WordB st = if at_boundary st then [st] else [].
Proof. reflexivity. Qed.

(** A whole-word literal matches its text, up to case, where no word
    character touches it. *)
Lemma whole_word_hit (W K bef rest : text) :
  lower K = lower W -> head_word K = true -> head_word (rev K) = true ->
  head_word bef = false -> head_word rest = false ->
  match_here (whole_word (lit_ci W)) bef (K ++ rest) = Some (MState (rev K ++ bef) rest []).
Proof.
  intros HK H1 H2 Hb Hr. unfold match_here, whole_word. cbn [seqs].
  assert (Hne : K <> []) by (intros ->; discriminate).
  rewrite run_Seq, run_WordB. unfold at_boundary. cbn [before ahead].
  rewrite head_word_app_ne, Hb, H1 by exact Hne. cbn [xorb flat_map].
  rewrite run_Seq, (@run_lit_ci_match W K _ _ _ HK). cbn [flat_map].
  rewrite run_WordB. unfold at_boundary. cbn [before ahead].
  rewrite head_word_app_ne, H2, Hr; [reflexivity|].
  intros E. apply Hne. now rewrite <- (rev_involutive K), E.
Qed.

Lemma word_literal_hit (W K bef rest : text) :
  lower K = lower W -> head_word K = true -> head_word bef = false ->
  match_here (Seq WordB (lit_ci W)) bef (K ++ rest) = Some (MState (rev K ++ bef) rest []).
Proof.
  intros HK H1 Hb. unfold match_here.
  assert (Hne : K <> []) by (intros ->; discriminate).
  rewrite run_Seq, run_WordB. unfold at_boundary. cbn [before ahead].
  rewrite head_word_app_ne, Hb, H1 by exact Hne. cbn [xorb flat_map].
  now rewrite (@run_lit_ci_match W K _ _ _ HK).
Qed.

End Literals.

(** ** Where a pattern can begin *)

Section Beginnings.

Lemma startswith_app_cases (w x y : text) :
  startswith w (x ++ y) = true ->
  startswith w x = true \/ exists v, v <> [] /\ w = x ++ v /\ startswith v y = true.
Proof.
  revert x. induction w as [|c w IH]; intros x H; [now left|].
  destruct x as [|d x].
  - right. exists (c :: w). split; [discriminate | split; [reflexivity | exact H]].
  - cbn [app startswith] in H |- *. apply andb_true_iff in H as [Hc H].
    rewrite Hc. cbn [andb]. apply ascii_eqb_true in Hc. subst d.
    destruct (IH x H) as [Hl | [v [Hv [-> Hs]]]]; [now left|].
    right. exists v. split; [exact Hv | split; [reflexivity | exact Hs]].
Qed.

Lemma contains_suffix (w x y : text) :
  startswith w y = true -> contains w (x ++ y) = true.
Proof.
  intros H. induction x as [|c x IH].
  - destruct y; cbn [app contains]; now rewrite H.
  - cbn [app contains]. rewrite IH. apply orb_true_r.
Qed.

Lemma head_word_rev_app (w rest : text) :
  w <> [] -> forallb is_word w = true -> head_word (rev w ++ rest) = true.
Proof.
  intros Hne H.
  assert (Hr : rev w <> []) by (intros E; apply Hne; now rewrite <- (rev_involutive w), E).
  rewrite head_word_app_ne by exact Hr.
  destruct (rev w) as [|c l] eqn:E; [congruence|]. cbn [head_word].
  apply (proj1 (forallb_forall _ _) H). apply in_rev. rewrite E. now left.
Qed.

(** In a stretch that does not hold [w], no occurrence of [w] begins, also
    when the stretch is followed by more text, provided the stretch does not
    end in a word character and [w] is word characters up to its last. *)
Lemma no_start_in_plain (w a a1 a2 tail : text) (c : ascii) :
  contains w (lower a) = false ->
  forallb is_word (removelast w) = true ->
  tail = [] \/ head_word (rev a) = false ->
  a = a1 ++ c :: a2 ->
  startswith w (lower (c :: a2 ++ tail)) = false.
Proof.
  intros Hq Hw Ht Ea. apply not_true_is_false. intros H.
  change (c :: a2 ++ tail) with ((c :: a2) ++ tail) in H. rewrite lower_app in H.
  apply startswith_app_cases in H as [H | [v [Hv [E Hs]]]].
  - rewrite Ea, lower_app, (@contains_suffix w (lower a1) _ H) in Hq. discriminate.
  - destruct Ht as [-> | Ht].
    { destruct v; [congruence | discriminate]. }
    assert (Hu : forallb is_word (lower (c :: a2)) = true).
    { rewrite E, removelast_app in Hw by exact Hv.
      rewrite forallb_app in Hw. now apply andb_true_iff in Hw as [Hw _]. }
    assert (Hx : forallb is_word (c :: a2) = true).
    { apply forallb_forall. intros x Hx. rewrite <- is_word_lower.
      apply (proj1 (forallb_forall _ _) Hu). unfold lower. now apply in_map. }
    rewrite Ea, rev_app_distr, head_word_rev_app in Ht; [discriminate | discriminate | exact Hx].
Qed.

Lemma lower_char_idem (c : ascii) : lower_char (lower_char c) = lower_char c.
Proof. destruct c as [[] [] [] [] [] [] [] []]; reflexivity. Qed.

Lemma starts_nowhere_lower (first : ascii) (prev : bool) (x : text) :
  starts_nowhere first prev (lower x) = starts_nowhere first prev x.
Proof.
  revert prev. induction x as [|c x IH]; intros prev; [reflexivity|].
  cbn [lower map starts_nowhere]. fold (lower x).
  now rewrite lower_char_idem, is_word_lower, IH.
Qed.

Lemma starts_nowhere_chars (first : ascii) (prev : bool) (x : text) :
  (forall c, In c x -> lower_char c <> first) -> starts_nowhere first prev x = true.
Proof.
  revert prev. induction x as [|c x IH]; intros prev H; [reflexivity|].
  cbn [starts_nowhere]. rewrite IH by (intros c' Hc'; apply H; now right).
  destruct (ascii_eqb (lower_char c) first) eqn:E; [|reflexivity].
  apply ascii_eqb_true in E. exfalso. apply (H c); [now left | exact E].
Qed.

Lemma starts_nowhere_spec (first : ascii) (x : text) :
  forall prev bef, head_word bef = prev -> starts_nowhere first prev x = true ->
  forall x1 c x2, x = x1 ++ c :: x2 -> lower_char c = first ->
                  head_word (rev x1 ++ bef) = true.
Proof.
  induction x as [|c0 x IH]; intros prev bef Hp H x1 c x2 E Hc.
  - destruct x1; discriminate.
  - cbn [starts_nowhere] in H. apply andb_true_iff in H as [H0 H].
    destruct x1 as [|d x1]; cbn [app] in E; inversion E; subst.
    + rewrite ascii_eqb_refl in H0. cbn [negb orb] in H0. exact H0.
    + cbn [rev]. rewrite <- app_assoc.
      apply (IH (is_word d) ([d] ++ bef) eq_refl H x1 c x2 eq_refl eq_refl).
Qed.

Variable P : re.
Variable W : text.
Variable first : ascii.
Variable Wrest : text.
Variable w : text.

Hypothesis P_begins : forall bef ah,
  match_here P bef ah <> None ->
  xorb (head_word bef) (head_word ah) = true /\ startswith (lower W) (lower ah) = true.
Hypothesis W_first : lower W = first :: Wrest.
Hypothesis first_word : is_word first = true.
Hypothesis w_prefix : exists w2, lower W = w ++ w2.
Hypothesis w_word : forallb is_word (removelast w) = true.

Lemma startswith_shorter (a b x : text) :
  startswith (a ++ b) x = true -> startswith a x = true.
Proof.
  intros H. apply startswith_prefix in H as [rest ->].
  apply startswith_prefix. exists (b ++ rest). now rewrite app_assoc.
Qed.

(** A match begins with a character that lowers to [first], behind a
    character that is no word character. *)
Lemma match_needs (bef ah : text) :
  match_here P bef ah <> None ->
  head_word bef = false
  /\ exists c x, ah = c :: x /\ lower_char c = first.
Proof.
  intros H. destruct (P_begins _ _ H) as [Hb Hs]. rewrite W_first in Hs.
  destruct ah as [|c x]; [discriminate|].
  cbn [lower map startswith] in Hs. apply andb_true_iff in Hs as [Hc _].
  apply ascii_eqb_true in Hc. split; [|now exists c, x].
  cbn [head_word] in Hb. rewrite <- is_word_lower, <- Hc, first_word in Hb.
  now destruct (head_word bef).
Qed.

Lemma none_in_plain (a tail bef : text) :
  contains w (lower a) = false ->
  tail = [] \/ head_word (rev a) = false ->
  forall a1 c a2, a = a1 ++ c :: a2 ->
                  match_here P (rev a1 ++ bef) (c :: a2 ++ tail) = None.
Proof.
  intros Hq Ht a1 c a2 Ea.
  destruct (match_here P (rev a1 ++ bef) (c :: a2 ++ tail)) as [st|] eqn:E; [|reflexivity].
  exfalso. assert (Hm : match_here P (rev a1 ++ bef) (c :: a2 ++ tail) <> None) by congruence.
  destruct (P_begins _ _ Hm) as [_ Hs]. destruct w_prefix as [w2 Ew]. rewrite Ew in Hs.
  apply startswith_shorter in Hs.
  now rewrite (@no_start_in_plain w a a1 a2 tail c Hq w_word Ht Ea) in Hs.
Qed.

Lemma none_at_end (bef : text) : match_here P bef [] = None.
Proof.
  destruct (match_here P bef []) as [st|] eqn:E; [|reflexivity].
  exfalso. assert (Hm : match_here P bef [] <> None) by congruence.
  destruct (@match_needs _ _ Hm) as [_ [c [x [Hx _]]]]. discriminate.
Qed.

Lemma none_in_last (a bef : text) :
  contains w (lower a) = false ->
  forall a1 a2, a = a1 ++ a2 -> match_here P (rev a1 ++ bef) a2 = None.
Proof.
  intros Hq a1 a2 Ea. destruct a2 as [|c a2]; [apply none_at_end|].
  rewrite <- (app_nil_r a2). apply none_in_plain with (a := a); auto.
Qed.

(** No match begins in a block none of whose characters lowers to [first]. *)
Lemma none_by_chars (B bef rest : text) :
  (forall c, In c B -> lower_char c <> first) ->
  forall b1 c b2, B = b1 ++ c :: b2 ->
                  match_here P (rev b1 ++ bef) (c :: b2 ++ rest) = None.
Proof.
  intros H b1 c b2 E.
  destruct (match_here P (rev b1 ++ bef) (c :: b2 ++ rest)) as [st|] eqn:Em; [|reflexivity].
  exfalso. assert (Hm : match_here P (rev b1 ++ bef) (c :: b2 ++ rest) <> None) by congruence.
  destruct (@match_needs _ _ Hm) as [_ [c' [x [Hx Hc]]]]. inversion Hx; subst c'.
  apply (H c); [|exact Hc]. rewrite E. apply in_or_app. right. now left.
Qed.

(** No match begins in a block that does not begin like the literal and
    inside which no character that lowers to [first] comes after one that
    is no word character. *)
Lemma none_by_kind (b0 : ascii) (B' bef rest : text) :
  startswith (lower W) (lower ((b0 :: B') ++ rest)) = false ->
  starts_nowhere first (is_word b0) B' = true ->
  forall b1 c b2, b0 :: B' = b1 ++ c :: b2 ->
                  match_here P (rev b1 ++ bef) (c :: b2 ++ rest) = None.
Proof.
  intros Hs Hn b1 c b2 E.
  destruct (match_here P (rev b1 ++ bef) (c :: b2 ++ rest)) as [st|] eqn:Em; [|reflexivity].
  exfalso. assert (Hm : match_here P (rev b1 ++ bef) (c :: b2 ++ rest) <> None) by congruence.
  destruct b1 as [|d b1]; cbn [app] in E; inversion E; subst.
  - destruct (P_begins _ _ Hm) as [_ Hs']. cbn [app] in Hs. congruence.
  - destruct (@match_needs _ _ Hm) as [Hb [c' [x [Hx Hc]]]]. inversion Hx; subst c'.
    cbn [rev] in Hb. rewrite <- app_assoc in Hb.
    rewrite (@starts_nowhere_spec first (b1 ++ c :: b2) (is_word d) ([d] ++ bef)
               eq_refl Hn b1 c b2 eq_refl Hc) in Hb.
    discriminate.
Qed.

End Beginnings.

(** ** One substitution over stretches and blocks *)

Section SubStretches.

Variable P : re.
Variable repl : text.
Variable hit : text -> bool.
Variable block : text -> Prop.

Hypothesis Hmid : forall a tail bef,
  quiet a -> head_word (rev a) = false ->
  forall a1 c a2, a = a1 ++ c :: a2 ->
                  match_here P (rev a1 ++ bef) (c :: a2 ++ tail) = None.
Hypothesis Hlast : forall a bef,
  quiet a -> forall a1 a2, a = a1 ++ a2 -> match_here P (rev a1 ++ bef) a2 = None.
Hypothesis Hhit : forall B bef rest,
  block B -> hit B = true -> head_word bef = false -> head_word rest = false ->
  B <> [] /\ match_here P bef (B ++ rest) = Some (MState (rev B ++ bef) rest []).
Hypothesis Hmiss : forall B bef rest,
  block B -> hit B = false -> head_word bef = false -> head_word rest = false ->
  forall b1 c b2, B = b1 ++ c :: b2 ->
                  match_here P (rev b1 ++ bef) (c :: b2 ++ rest) = None.

Lemma stretches_head (segs : list (text * text)) (last : text) :
  stretches block false segs last -> head_word (render segs last) = false.
Proof.
  destruct segs as [|[a B] segs]; cbn [stretches render].
  - intros [_ [H | H]]; [discriminate | exact H].
  - intros [_ [_ [[H | [Hne Ha]] _]]]; [discriminate|].
    now rewrite head_word_app_ne.
Qed.

(** The substitution replaces the blocks it hits and copies the rest. *)
Lemma sub_stretches (segs : list (text * text)) (last : text) :
  forall first bef,
    stretches block first segs last ->
    (first = true -> head_word bef = false) ->
    sub_from P repl 0 bef (render segs last)
    = render (replace_blocks hit repl segs) last.
Proof.
  induction segs as [|[a B] segs IH]; intros first bef Hs Hb; cbn [stretches render] in *.
  - destruct Hs as [Hq _]. apply sub_from_end. intros x1 x2 E. now apply Hlast with (a := last).
  - destruct Hs as [Hq [Hra [Hfirst [HB Hrest]]]].
    cbn [replace_blocks map render fst snd]. fold (replace_blocks hit repl segs).
    rewrite sub_from_pass by (intros x1 c x2 E; now apply Hmid with (a := a)).
    f_equal.
    assert (Hctx : head_word (rev a ++ bef) = false).
    { destruct a as [|c a]; [|rewrite head_word_app_ne; [exact Hra|]].
      - destruct Hfirst as [-> | [Hne _]]; [now apply Hb | congruence].
      - intros E. apply (f_equal (@rev ascii)) in E.
        rewrite rev_involutive in E. discriminate. }
    pose proof (stretches_head _ _ Hrest) as Hr.
    destruct (hit B) eqn:Eh.
    + destruct (Hhit (rev a ++ bef) (render segs last) HB Eh Hctx Hr) as [Hne Hm].
      rewrite (@sub_from_hit P repl _ _ _ _ Hm eq_refl Hne). f_equal.
      apply (IH false); [exact Hrest | discriminate].
    + rewrite sub_from_pass
        by (intros b1 c b2 E;
            now apply (Hmiss (rev a ++ bef) (render segs last) HB Eh Hctx Hr)).
      f_equal. apply (IH false); [exact Hrest | discriminate].
Qed.

End SubStretches.

Lemma stretches_map (block block' : text -> Prop) (f : text -> text) :
  (forall B, block B -> block' (f B)) ->
  forall segs first last,
    stretches block first segs last ->
    stretches block' first (map (fun s => (fst s, f (snd s))) segs) last.
Proof.
  intros Hf. induction segs as [|[a B] segs IH]; intros first last H; cbn [stretches map] in *.
  - exact H.
  - destruct H as [Hq [Hra [Hfirst [HB Hrest]]]]. cbn [fst snd].
    split; [exact Hq | split; [exact Hra | split; [exact Hfirst | split]]];
      [now apply Hf | now apply IH].
Qed.

Lemma none_by_lowered (P : re) (W : text) (first : ascii) (Wrest : text)
    (P_begins : forall bef ah,
        match_here P bef ah <> None ->
        xorb (head_word bef) (head_word ah) = true
        /\ startswith (lower W) (lower ah) = true)
    (W_first : lower W = first :: Wrest) (first_word : is_word first = true)
    (B V : text) (v0 : ascii) (V' bef rest : text) :
  lower B = V -> V = v0 :: V' ->
  (forall x, startswith (lower W) (V ++ x) = false) ->
  starts_nowhere first (is_word v0) V' = true ->
  forall b1 c b2, B = b1 ++ c :: b2 ->
                  match_here P (rev b1 ++ bef) (c :: b2 ++ rest) = None.
Proof.
  intros HB HV Hs Hn. rewrite HV in HB. destruct B as [|b0 B']; [discriminate HB|].
  cbn [lower map] in HB. injection HB as Hb0 HB'. fold (lower B') in HB'.
  apply (@none_by_kind P W first Wrest P_begins W_first first_word b0 B' bef rest).
  - rewrite lower_app. cbn [lower map]. fold (lower B'). rewrite Hb0, HB', <- HV. apply Hs.
  - now rewrite <- starts_nowhere_lower, HB', <- is_word_lower, Hb0.
Qed.

(** ** The five substitutions of anchoring *)

Section Anchoring.

Variable d : text.
Hypothesis Hd : date_like d.

Lemma date_char_lower (c : ascii) :
  date_char c = true -> lower_char c <> "c"%char /\ lower_char c <> "n"%char.
Proof.
  destruct c as [[] [] [] [] [] [] [] []]; intros H; vm_compute in H;
    try discriminate H; split; discriminate.
Qed.

Lemma anchor_chars (c : ascii) :
  In c (as_date d) \/ In c (as_timestamp d) ->
  lower_char c <> "c"%char /\ lower_char c <> "n"%char.
Proof.
  destruct Hd as [_ Hall].
  assert (Hin : forall tl, (forall x, In x tl -> lower_char x <> "c"%char
                                                /\ lower_char x <> "n"%char) ->
                           In c (L "'" ++ d ++ tl) ->
                           lower_char c <> "c"%char /\ lower_char c <> "n"%char).
  { intros tl Htl H. cbn [L list_ascii_of_string app] in H.
    destruct H as [<- | H]; [split; discriminate|].
    apply in_app_iff in H. destruct H as [H | H].
    - apply date_char_lower. now apply (proj1 (forallb_forall _ _) Hall).
    - now apply Htl. }
  intros [H | H]; revert H; apply Hin; intros x Hx; cbn in Hx;
    repeat (destruct Hx as [<- | Hx]; [split; discriminate|]); contradiction.
Qed.

Lemma temporal_word (W : string) (B : text) :
  lower B = L W -> head_word (L W) = true -> head_word B = true.
Proof. intros H Hw. now rewrite <- head_word_lower, H. Qed.

Lemma temporal_word_end (W : string) (B : text) :
  lower B = L W -> head_word (rev (L W)) = true -> head_word (rev B) = true.
Proof. intros H Hw. now rewrite <- head_word_lower, lower_rev, H. Qed.

Lemma is_text_true (W : string) (B : text) : is_text W B = true <-> lower B = L W.
Proof. unfold is_text. apply text_eqb_true. Qed.

Lemma current_date_begins (bef ah : text) :
  match_here gr.current_date_re bef ah <> None ->
  xorb (head_word bef) (head_word ah) = true
  /\ startswith (lower (L "current_date")) (lower ah) = true.
Proof. apply boundary_literal. Qed.

Lemma current_timestamp_begins (bef ah : text) :
  match_here gr.current_timestamp_re bef ah <> None ->
  xorb (head_word bef) (head_word ah) = true
  /\ startswith (lower (L "current_timestamp")) (lower ah) = true.
Proof. apply boundary_literal. Qed.

Lemma now_begins (bef ah : text) :
  match_here gr.now_re bef ah <> None ->
  xorb (head_word bef) (head_word ah) = true
  /\ startswith (lower (L "now()")) (lower ah) = true.
Proof. apply boundary_literal_end. Qed.

Lemma sub_current_date (segs : list (text * text)) (last : text) :
  stretches (anchoring_block d) true segs last ->
  sub gr.current_date_re (as_date d) (render segs last)
  = render (replace_blocks (is_text "current_date") (as_date d) segs) last.
Proof.
  intros H. unfold sub.
  apply sub_stretches with (block := anchoring_block d) (first := true);
    [| | | | exact H | reflexivity].
  - intros a tail bef [Hq _] Hra a1 c a2 E.
    apply (@none_in_plain gr.current_date_re (L "current_date") (L "current_")
             current_date_begins (ex_intro _ (L "date") eq_refl) eq_refl
             a tail bef Hq (or_intror Hra) a1 c a2 E).
  - intros a bef [Hq _] a1 a2 E.
    apply (@none_in_last gr.current_date_re (L "current_date") "c"%char (L "urrent_date")
             (L "current_") current_date_begins eq_refl eq_refl
             (ex_intro _ (L "date") eq_refl) eq_refl a bef Hq a1 a2 E).
  - intros B bef rest _ Eh Hb Hr. apply is_text_true in Eh.
    split; [intros ->; discriminate|].
    apply whole_word_hit; auto.
    + now apply (temporal_word "current_date").
    + now apply (temporal_word_end "current_date").
  - intros B bef rest HB Eh Hb Hr.
    destruct HB as [[HB | [HB | HB]] | [-> | ->]].
    + apply is_text_true in HB. congruence.
    + apply (@none_by_lowered gr.current_date_re (L "current_date") "c"%char
               (L "urrent_date") current_date_begins eq_refl eq_refl
               B (L "current_timestamp") "c"%char (L "urrent_timestamp") bef rest HB eq_refl);
        [intros x|]; reflexivity.
    + apply (@none_by_lowered gr.current_date_re (L "current_date") "c"%char
               (L "urrent_date") current_date_begins eq_refl eq_refl
               B (L "now()") "n"%char (L "ow()") bef rest HB eq_refl);
        [intros x|]; reflexivity.
    + apply (@none_by_chars gr.current_date_re (L "current_date") "c"%char
               (L "urrent_date") current_date_begins eq_refl eq_refl).
      intros c Hc. apply anchor_chars. now left.
    + apply (@none_by_chars gr.current_date_re (L "current_date") "c"%char
               (L "urrent_date") current_date_begins eq_refl eq_refl).
      intros c Hc. apply anchor_chars. now right.
Qed.

Lemma sub_now (segs : list (text * text)) (last : text) :
  stretches (anchoring_block d) true segs last ->
  sub gr.now_re (as_timestamp d) (render segs last)
  = render (replace_blocks (is_text "now()") (as_timestamp d) segs) last.
Proof.
  intros H. unfold sub.
  apply sub_stretches with (block := anchoring_block d) (first := true);
    [| | | | exact H | reflexivity].
  - intros a tail bef [_ Hq] Hra a1 c a2 E.
    apply (@none_in_plain gr.now_re (L "now()") (L "now(")
             now_begins (ex_intro _ (L ")") eq_refl) eq_refl
             a tail bef Hq (or_intror Hra) a1 c a2 E).
  - intros a bef [_ Hq] a1 a2 E.
    apply (@none_in_last gr.now_re (L "now()") "n"%char (L "ow()")
             (L "now(") now_begins eq_refl eq_refl
             (ex_intro _ (L ")") eq_refl) eq_refl a bef Hq a1 a2 E).
  - intros B bef rest _ Eh Hb Hr. apply is_text_true in Eh.
    split; [intros ->; discriminate|].
    apply (@word_literal_hit (L "now()") B bef rest); auto.
    now apply (temporal_word "now()").
  - intros B bef rest HB Eh Hb Hr.
    destruct HB as [[HB | [HB | HB]] | [-> | ->]].
    + apply (@none_by_lowered gr.now_re (L "now()") "n"%char
               (L "ow()") now_begins eq_refl eq_refl
               B (L "current_date") "c"%char (L "urrent_date") bef rest HB eq_refl);
        [intros x|]; reflexivity.
    + apply (@none_by_lowered gr.now_re (L "now()") "n"%char
               (L "ow()") now_begins eq_refl eq_refl
               B (L "current_timestamp") "c"%char (L "urrent_timestamp") bef rest HB eq_refl);
        [intros x|]; reflexivity.
    + apply is_text_true in HB. congruence.
    + apply (@none_by_chars gr.now_re (L "now()") "n"%char
               (L "ow()") now_begins eq_refl eq_refl).
      intros c Hc. apply anchor_chars. now left.
    + apply (@none_by_chars gr.now_re (L "now()") "n"%char
               (L "ow()") now_begins eq_refl eq_refl).
      intros c Hc. apply anchor_chars. now right.
Qed.

Lemma sub_current_timestamp (segs : list (text * text)) (last : text) :
  stretches (anchoring_block d) true segs last ->
  sub gr.current_timestamp_re (as_timestamp d) (render segs last)
  = render (replace_blocks (is_text "current_timestamp") (as_timestamp d) segs) last.
Proof.
  intros H. unfold sub.
  apply sub_stretches with (block := anchoring_block d) (first := true);
    [| | | | exact H | reflexivity].
  - intros a tail bef [Hq _] Hra a1 c a2 E.
    apply (@none_in_plain gr.current_timestamp_re (L "current_timestamp") (L "current_")
             current_timestamp_begins (ex_intro _ (L "timestamp") eq_refl) eq_refl
             a tail bef Hq (or_intror Hra) a1 c a2 E).
  - intros a bef [Hq _] a1 a2 E.
    apply (@none_in_last gr.current_timestamp_re (L "current_timestamp") "c"%char
             (L "urrent_timestamp") (L "current_") current_timestamp_begins eq_refl eq_refl
             (ex_intro _ (L "timestamp") eq_refl) eq_refl a bef Hq a1 a2 E).
  - intros B bef rest _ Eh Hb Hr. apply is_text_true in Eh.
    split; [intros ->; discriminate|].
    apply whole_word_hit; auto.
    + now apply (temporal_word "current_timestamp").
    + now apply (temporal_word_end "current_timestamp").
  - intros B bef rest HB Eh Hb Hr.
    destruct HB as [[HB | [HB | HB]] | [-> | ->]].
    + apply (@none_by_lowered gr.current_timestamp_re (L "current_timestamp") "c"%char
               (L "urrent_timestamp") current_timestamp_begins eq_refl eq_refl
               B (L "current_date") "c"%char (L "urrent_date") bef rest HB eq_refl);
        [intros x|]; reflexivity.
    + apply is_text_true in HB. congruence.
    + apply (@none_by_lowered gr.current_timestamp_re (L "current_timestamp") "c"%char
               (L "urrent_timestamp") current_timestamp_begins eq_refl eq_refl
               B (L "now()") "n"%char (L "ow()") bef rest HB eq_refl);
        [intros x|]; reflexivity.
    + apply (@none_by_chars gr.current_timestamp_re (L "current_timestamp") "c"%char
               (L "urrent_timestamp") current_timestamp_begins eq_refl eq_refl).
      intros c Hc. apply anchor_chars. now left.
    + apply (@none_by_chars gr.current_timestamp_re (L "current_timestamp") "c"%char
               (L "urrent_timestamp") current_timestamp_begins eq_refl eq_refl).
      intros c Hc. apply anchor_chars. now right.
Qed.

End Anchoring.

(** ** Quiet texts *)

Section Quiet.

Lemma contains_cons_false (w : text) (c : ascii) (x : text) :
  contains w (c :: x) = false -> startswith w (c :: x) = false /\ contains w x = false.
Proof. cbn [contains]. apply orb_false_iff. Qed.

(** A text holds no [w] when it is put together from two texts that hold
    none and a text between them that begins with a character not in [w]
    and holds nowhere the first character of [w]. *)
Lemma contains_around (w x y z : text) (c0 q : ascii) (w' y' : text) :
  w = c0 :: w' -> y = q :: y' ->
  ~ In c0 y -> ~ In q w ->
  contains w x = false -> contains w z = false ->
  contains w (x ++ y ++ z) = false.
Proof.
  intros Ew Ey Hc Hq Hx Hz.
  assert (Hyz : contains w (y ++ z) = false).
  { clear Ey Hq. induction y as [|c y IH]; [exact Hz|].
    cbn [app contains]. rewrite IH by (intros H; apply Hc; now right).
    rewrite Ew. cbn [startswith].
    destruct (ascii_eqb c0 c) eqn:E; [|reflexivity].
    apply ascii_eqb_true in E. exfalso. apply Hc. now left. }
  induction x as [|c x IH]; [exact Hyz|].
  apply contains_cons_false in Hx as [Hs Hx].
  cbn [app contains]. rewrite (IH Hx), orb_false_r.
  apply not_true_is_false. intros H.
  change (c :: x ++ y ++ z) with ((c :: x) ++ y ++ z) in H.
  apply startswith_app_cases in H as [H | [v [Hv [E Hsv]]]]; [congruence|].
  rewrite Ey in Hsv. destruct v as [|v0 v]; [congruence|].
  cbn [app startswith] in Hsv. apply andb_true_iff in Hsv as [Hv0 _].
  apply ascii_eqb_true in Hv0. subst v0.
  apply Hq. rewrite E. apply in_or_app. right. now left.
Qed.

Variable d : text.
Hypothesis Hd : date_like d.

Lemma quiet_around (a R rest : text) :
  R = as_date d \/ R = as_timestamp d ->
  quiet a -> quiet rest -> quiet (a ++ R ++ rest).
Proof.
  intros HR [Ha1 Ha2] [Hr1 Hr2].
  assert (Hch : forall c, In c R -> lower_char c <> "c"%char /\ lower_char c <> "n"%char).
  { intros c Hc. apply (anchor_chars Hd). destruct HR as [-> | ->]; [now left | now right]. }
  assert (Hhead : exists y', lower R = "'"%char :: y')
    by (destruct HR as [-> | ->]; eexists; reflexivity).
  destruct Hhead as [y' Ey].
  unfold quiet. rewrite !lower_app. split.
  - apply (@contains_around (L "current_") (lower a) (lower R) (lower rest)
             "c"%char "'"%char (L "urrent_") y' eq_refl Ey); auto.
    + intros H. apply in_map_iff in H as [c [Hc Hin]].
      destruct (Hch c Hin) as [N _]. now apply N.
    + cbn. intuition discriminate.
  - apply (@contains_around (L "now(") (lower a) (lower R) (lower rest)
             "n"%char "'"%char (L "ow(") y' eq_refl Ey); auto.
    + intros H. apply in_map_iff in H as [c [Hc Hin]].
      destruct (Hch c Hin) as [_ N]. now apply N.
    + cbn. intuition discriminate.
Qed.

Lemma anchored_cases (K : text) : anchored d K = as_date d \/ anchored d K = as_timestamp d.
Proof. unfold anchored. destruct (text_eqb _ _); [now left | now right]. Qed.

(** With every temporal expression replaced, the text is quiet. *)
Lemma quiet_anchored (segs : list (text * text)) (last : text) :
  forall first, stretches temporal first segs last -> quiet (render_anchored d segs last).
Proof.
  unfold render_anchored.
  induction segs as [|[a K] segs IH]; intros first H; cbn [stretches map render fst snd] in *.
  - now destruct H.
  - destruct H as [Hq [_ [_ [_ Hrest]]]].
    apply quiet_around; [apply anchored_cases | exact Hq | now apply (IH false)].
Qed.

End Quiet.

Lemma run_spans (r : re) (st out : mstate) :
  In out (run r st) -> exists m, spans st m out.
Proof. intros H. destruct (run_transport _ _ _ H) as [m [S _]]. now exists m. Qed.

(** No pattern of anchoring is found in a quiet text. *)
Lemma quiet_no_patterns (t : text) :
  quiet t ->
  found gr.current_date_re t = false
  /\ found gr.now_re t = false
  /\ found gr.current_timestamp_re t = false
  /\ found gr.current_timestamp_date_re t = false
  /\ found gr.date_trunc_re t = false.
Proof.
  intros [Hc Hn].
  assert (Hbegin : forall P W w w2,
            (forall bef ah, match_here P bef ah <> None ->
                            xorb (head_word bef) (head_word ah) = true
                            /\ startswith (lower W) (lower ah) = true) ->
            lower W = w ++ w2 -> contains w (lower t) = false -> found P t = false).
  { intros P W w w2 HP EW Hw. apply not_true_is_false. intros H.
    apply found_iff in H as [pre [ah [-> Hm]]].
    destruct (HP _ _ Hm) as [_ Hs]. rewrite EW in Hs. apply startswith_shorter in Hs.
    rewrite lower_app, (@contains_suffix w (lower pre) _ Hs) in Hw. discriminate. }
  split; [|split; [|split; [|split]]].
  - apply (Hbegin _ (L "current_date") (L "current_") (L "date") current_date_begins eq_refl Hc).
  - apply (Hbegin _ (L "now()") (L "now(") (L ")") now_begins eq_refl Hn).
  - apply (Hbegin _ (L "current_timestamp") (L "current_") (L "timestamp")
             current_timestamp_begins eq_refl Hc).
  - apply (Hbegin gr.current_timestamp_date_re (L "current_timestamp") (L "current_")
             (L "timestamp")); [|reflexivity | exact Hc].
    intros bef ah. apply boundary_literal.
  - apply not_true_is_false. intros H.
    apply found_iff in H as [pre [ah [-> Hm]]].
    apply match_here_some in Hm as [out H].
    unfold gr.date_trunc_re in H. cbn [seqs] in H.
    apply In_run_Seq in H as [m1 [H1 H]]. apply run_spans in H1 as [x1 [E1 _]].
    apply In_run_Seq in H as [m2 [H2 H]]. apply run_spans in H2 as [x2 [E2 _]].
    apply In_run_Seq in H as [m3 [H3 H]]. apply run_spans in H3 as [x3 [E3 _]].
    apply In_run_Seq in H as [m4 [H4 H]]. apply run_spans in H4 as [x4 [E4 _]].
    apply In_run_Seq in H as [m5 [H5 H]]. apply run_spans in H5 as [x5 [E5 _]].
    apply In_run_Seq in H as [m6 [H6 H]]. apply run_spans in H6 as [x6 [E6 _]].
    apply In_run_Seq in H as [m7 [H7 _]].
    apply In_run_lit_ci in H7 as [o [rest [Ea [Ho _]]]].
    cbn [ahead] in E1. rewrite E1, E2, E3, E4, E5, E6, Ea in Hn.
    rewrite !app_assoc in Hn. rewrite <- (app_assoc _ o rest) in Hn.
    rewrite lower_app in Hn.
    assert (Hs : startswith (L "now(") (lower (o ++ rest)) = true).
    { apply startswith_shorter with (b := L ")"). now apply startswith_lower_prefix. }
    rewrite (@contains_suffix (L "now(") _ _ Hs) in Hn. discriminate.
Qed.

(** ** The whole of anchoring on stand-alone expressions *)

Section Whole.

Variable d : text.
Hypothesis Hd : date_like d.

Lemma stretches_weaken (segs : list (text * text)) (last : text) :
  forall first, stretches temporal first segs last ->
                stretches (anchoring_block d) first segs last.
Proof.
  induction segs as [|[a B] segs IH]; intros first H; cbn [stretches] in *; [exact H|].
  destruct H as [Hq [Hra [Hfirst [HB Hrest]]]].
  split; [exact Hq | split; [exact Hra | split; [exact Hfirst | split]]];
    [now left | now apply IH].
Qed.

Lemma stretches_replace (hit : text -> bool) (repl : text)
    (segs : list (text * text)) (last : text) (first : bool) :
  repl = as_date d \/ repl = as_timestamp d ->
  stretches (anchoring_block d) first segs last ->
  stretches (anchoring_block d) first (replace_blocks hit repl segs) last.
Proof.
  intros Hr. unfold replace_blocks.
  apply (@stretches_map (anchoring_block d) (anchoring_block d)
           (fun B => if hit B then repl else B)).
  intros B HB. destruct (hit B); [|exact HB].
  right. exact Hr.
Qed.

Lemma anchors_are_no_targets (R : text) :
  R = as_date d \/ R = as_timestamp d ->
  is_text "current_date" R = false /\ is_text "now()" R = false
  /\ is_text "current_timestamp" R = false.
Proof. intros [-> | ->]; repeat split; vm_compute; reflexivity. Qed.

Lemma replace_all (segs : list (text * text)) (last : text) :
  forall first, stretches temporal first segs last ->
  replace_blocks (is_text "current_timestamp") (as_timestamp d)
    (replace_blocks (is_text "now()") (as_timestamp d)
       (replace_blocks (is_text "current_date") (as_date d) segs))
  = map (fun s => (fst s, anchored d (snd s))) segs.
Proof.
  unfold replace_blocks.
  induction segs as [|[a K] segs IH]; intros first H; [reflexivity|].
  cbn [stretches] in H. destruct H as [_ [_ [_ [HK Hrest]]]].
  cbn [map fst snd]. rewrite (IH false Hrest). f_equal. f_equal.
  destruct (anchors_are_no_targets (or_introl eq_refl)) as [_ [D2 D3]].
  destruct (anchors_are_no_targets (or_intror eq_refl)) as [_ [_ T3]].
  assert (Hk : forall W, is_text W K = text_eqb (lower K) (L W)) by reflexivity.
  unfold anchored.
  destruct HK as [HK | [HK | HK]].
  - replace (is_text "current_date" K) with true by (now rewrite Hk, HK).
    cbv iota. rewrite D2. cbv iota. rewrite D3. cbv iota. now rewrite HK.
  - replace (is_text "current_date" K) with false by (now rewrite Hk, HK).
    cbv iota.
    replace (is_text "now()" K) with false by (now rewrite Hk, HK).
    cbv iota.
    replace (is_text "current_timestamp" K) with true by (now rewrite Hk, HK).
    cbv iota. now rewrite HK.
  - replace (is_text "current_date" K) with false by (now rewrite Hk, HK).
    cbv iota.
    replace (is_text "now()" K) with true by (now rewrite Hk, HK).
    cbv iota. rewrite T3. cbv iota. now rewrite HK.
Qed.

(** Anchoring replaces every stand-alone temporal expression and nothing
    else. *)
Lemma apply_subs_stretches (segs : list (text * text)) (last : text) :
  stands_alone segs last ->
  gr.apply_subs (gr.anchor_subs d) (render segs last) = render_anchored d segs last.
Proof.
  intros H. unfold stands_alone in H.
  pose proof (@stretches_weaken segs last true H) as H0.
  pose proof (@stretches_replace (is_text "current_date") (as_date d) segs last true
                (or_introl eq_refl) H0) as H1.
  pose proof (@stretches_replace (is_text "now()") (as_timestamp d) _ last true
                (or_intror eq_refl) H1) as H2.
  destruct (@quiet_no_patterns _ (@quiet_anchored d Hd segs last true H))
    as [_ [_ [_ [N4 N5]]]].
  unfold gr.apply_subs, gr.anchor_subs. cbv zeta. cbn [fold_left fst snd].
  change (L "'" ++ d ++ L "'::date") with (as_date d).
  change (L "'" ++ d ++ L "'::timestamp") with (as_timestamp d).
  rewrite (@sub_current_date d Hd segs last H0).
  rewrite (@sub_now d Hd _ last H1).
  rewrite (@sub_current_timestamp d Hd _ last H2).
  rewrite (@replace_all segs last true H).
  fold (render_anchored d segs last).
  now rewrite (@sub_no_match _ _ _ N4), (@sub_no_match _ _ _ N5).
Qed.

End Whole.

(** ** Stretches inside the anchored text *)

Section Embedded.

Lemma stretch_embedded (block : text -> Prop) (segs : list (text * text)) (last : text) :
  forall first, stretches block first segs last ->
  forall a, In a (map fst segs) \/ a = last ->
  exists X Y, render segs last = X ++ a ++ Y
              /\ ((first = true /\ X = []) \/ head_word a = false)
              /\ (Y = [] \/ head_word (rev a) = false).
Proof.
  induction segs as [|[a0 B] segs IH]; intros first H a Ha; cbn [stretches render map fst] in *.
  - destruct Ha as [[] | ->]. exists [], []. rewrite app_nil_r.
    destruct H as [_ [H | H]]; (split; [reflexivity | split; [|now left]]);
      [left; now split | now right].
  - destruct H as [Hq [Hra [Hfirst [HB Hrest]]]].
    assert (Hcases : a = a0 \/ (In a (map fst segs) \/ a = last)).
    { destruct Ha as [[<- | Ha] | ->]; [now left | right; now left | right; now right]. }
    destruct Hcases as [-> | Ha'].
    + exists [], (B ++ render segs last). split; [reflexivity|]. split; [|now right].
      destruct Hfirst as [-> | [_ Hw]]; [left; now split | now right].
    + destruct (IH false Hrest a Ha') as [X [Y [E [C1 C2]]]].
      exists (a0 ++ B ++ X), Y. split; [rewrite E; now rewrite <- !app_assoc|].
      split; [|exact C2]. destruct C1 as [[C _] | C]; [discriminate | now right].
Qed.

(** A pattern found in a stretch is found in the text. *)
Lemma found_in_stretch (block : text -> Prop) (P : re) (f : text -> text)
    (segs : list (text * text)) (last : text) :
  (forall x y, f (x ++ y) = f x ++ f y) -> f [] = [] ->
  (forall x, head_word (f x) = head_word x) -> (forall x, f (rev x) = rev (f x)) ->
  stretches block true segs last ->
  some_stretch (fun a => found P (f a)) segs last ->
  found P (f (render segs last)) = true.
Proof.
  intros Happ Hnil Hhw Hrev Hs [H | H].
  - apply Exists_exists in H as [[a B] [Hin Hf]]. cbn [fst] in Hf.
    destruct (@stretch_embedded block segs last true Hs a) as [X [Y [E [C1 C2]]]].
    { left. apply in_map_iff. now exists (a, B). }
    rewrite E, !Happ. apply found_embedded; [| |exact Hf].
    + destruct C1 as [[_ ->] | C]; [left; exact Hnil | right; now rewrite Hhw].
    + destruct C2 as [-> | C]; [left; exact Hnil | right; now rewrite <- Hrev, Hhw].
  - destruct (@stretch_embedded block segs last true Hs last) as [X [Y [E [C1 C2]]]];
      [now right|].
    rewrite E, !Happ. apply found_embedded; [| |exact H].
    + destruct C1 as [[_ ->] | C]; [left; exact Hnil | right; now rewrite Hhw].
    + destruct C2 as [-> | C]; [left; exact Hnil | right; now rewrite <- Hrev, Hhw].
Qed.

Lemma some_stretch_map (F : text -> bool) (g : text -> text)
    (segs : list (text * text)) (last : text) :
  some_stretch F segs last ->
  some_stretch F (map (fun s => (fst s, g (snd s))) segs) last.
Proof.
  intros [H | H]; [left | now right].
  apply Exists_exists in H as [s [Hin Hf]]. apply Exists_exists.
  exists (fst s, g (snd s)). split; [|exact Hf].
  apply in_map_iff. now exists s.
Qed.

End Embedded.

(** ** Trailing white space *)

Section Trailing.

Lemma lstrip_shorter (s : text) : length (lstrip s) <= length s.
Proof.
  induction s as [|c s IH]; simpl; [lia|]. destruct (is_space c); simpl; lia.
Qed.

Lemma rstrip_last_space (x : text) : rstrip x = x <-> last_space x = false.
Proof.
  unfold rstrip, last_space. destruct (rev x) as [|c l] eqn:E.
  - split; [reflexivity|]. intros _. cbn.
    now rewrite <- (rev_involutive x), E.
  - cbn [lstrip]. destruct (is_space c) eqn:Hc.
    + split; [|discriminate]. intros H. exfalso.
      apply (f_equal (@length ascii)) in H. rewrite length_rev in H.
      pose proof (lstrip_shorter l) as Hl.
      rewrite <- (length_rev x), E in H. cbn [length] in H. lia.
    + split; [reflexivity|]. intros _. now rewrite <- E, rev_involutive.
Qed.

Lemma last_space_app (x y : text) : y <> [] -> last_space (x ++ y) = last_space y.
Proof.
  intros Hy. unfold last_space. rewrite rev_app_distr.
  destruct (rev y) as [|c l] eqn:E; [|reflexivity].
  exfalso. apply Hy. now rewrite <- (rev_involutive y), E.
Qed.

Lemma is_space_lower (c : ascii) : is_space (lower_char c) = is_space c.
Proof. destruct c as [[] [] [] [] [] [] [] []]; reflexivity. Qed.

Lemma last_space_lower (x : text) : last_space (lower x) = last_space x.
Proof.
  unfold last_space. rewrite <- lower_rev.
  destruct (rev x) as [|c l]; [reflexivity | apply is_space_lower].
Qed.

Lemma last_space_render (block : text -> Prop) (segs : list (text * text)) (last : text) :
  (forall B, block B -> B <> [] /\ last_space B = false) ->
  forall first, stretches block first segs last ->
                last_space (render segs last) = last_space last.
Proof.
  intros Hblock. induction segs as [|[a B] segs IH]; intros first H;
    cbn [stretches render] in *; [reflexivity|].
  destruct H as [_ [_ [_ [HB Hrest]]]]. destruct (Hblock B HB) as [Hne Hsp].
  rewrite <- (IH false Hrest).
  destruct (render segs last) as [|c rest] eqn:E.
  - rewrite app_nil_r, last_space_app by exact Hne. exact Hsp.
  - rewrite app_assoc. apply last_space_app. discriminate.
Qed.

Lemma temporal_block_end (K : text) : temporal K -> K <> [] /\ last_space K = false.
Proof.
  intros H. split; [intros ->; destruct H as [H | [H | H]]; discriminate|].
  rewrite <- last_space_lower. destruct H as [H | [H | H]]; rewrite H; reflexivity.
Qed.

Lemma anchor_block_end (d R : text) :
  R = as_date d \/ R = as_timestamp d -> R <> [] /\ last_space R = false.
Proof.
  intros [-> | ->]; (split; [discriminate|]).
  - unfold as_date. rewrite !app_assoc. now rewrite last_space_app.
  - unfold as_timestamp. rewrite !app_assoc. now rewrite last_space_app.
Qed.

Lemma ensure_limit_stripped (x : text) : rstrip (gr.ensure_limit x) = gr.ensure_limit x.
Proof.
  unfold gr.ensure_limit, gr.ensure_limit_with.
  destruct (found gr.limit_re (rstrip x)); [apply rstrip_idem|].
  destruct (found gr.aggregate_re (rstrip x)); [apply rstrip_idem|].
  change (str_of_nat 200) with (L "200").
  change (L " LIMIT " ++ L "200") with (L " LIMIT 200").
  apply appended_limit_is_stripped.
Qed.

End Trailing.

(** ** Anchoring twice *)

Section Idempotence.

Variable d : text.
Hypothesis Hd : date_like d.

Lemma as_anchor (K : text) :
  anchored d K = as_date d \/ anchored d K = as_timestamp d.
Proof. apply anchored_cases. Qed.

Lemma render_anchored_nil (segs : list (text * text)) (last : text) :
  render_anchored d segs last = [] -> render segs last = [].
Proof.
  unfold render_anchored. destruct segs as [|[a K] segs]; [trivial|].
  cbn [map render fst snd]. intros H.
  apply app_eq_nil in H as [_ H]. apply app_eq_nil in H as [H _].
  destruct (as_anchor K) as [E | E]; rewrite E in H; discriminate.
Qed.

Lemma anchored_stretches (segs : list (text * text)) (last : text) (first : bool) :
  stretches temporal first segs last ->
  stretches (fun R => R = as_date d \/ R = as_timestamp d) first
            (map (fun s => (fst s, anchored d (snd s))) segs) last.
Proof.
  apply (@stretches_map temporal (fun R => R = as_date d \/ R = as_timestamp d)
           (anchored d)).
  intros B _. apply as_anchor.
Qed.

Lemma some_stretch_or (F G : text -> bool) (segs : list (text * text)) (last : text) :
  some_stretch (fun a => F a || G a) segs last ->
  some_stretch F segs last \/ some_stretch G segs last.
Proof.
  intros [H | H].
  - apply Exists_exists in H as [s [Hin Hf]]. apply orb_true_iff in Hf as [Hf | Hf];
      [left | right]; left; apply Exists_exists; now exists s.
  - apply orb_true_iff in H as [H | H]; [left | right]; now right.
Qed.

(** The anchored text is left as it is by a second pass of the three
    rewrites. *)
Lemma anchored_text_is_fixed (store_id : text) (segs : list (text * text)) (last : text) :
  stands_alone segs last ->
  rstrip (render segs last) = render segs last ->
  some_stretch (fun a => found gr.store_pred_re (lower a)) segs last ->
  some_stretch (fun a => found gr.limit_re a || found gr.aggregate_re a) segs last ->
  qs.rewrite (render_anchored d segs last) store_id (Some d) = render_anchored d segs last.
Proof.
  intros Hs Hstrip Hstore Hcap. unfold stands_alone in Hs.
  pose proof (@anchored_stretches segs last true Hs) as Hs'.
  (* the store predicate is still there *)
  assert (H1 : found gr.store_pred_re (lower (render_anchored d segs last)) = true).
  { unfold render_anchored.
    apply (@found_in_stretch _ gr.store_pred_re lower _ last
             lower_app eq_refl head_word_lower lower_rev Hs').
    now apply some_stretch_map. }
  (* so is the cap *)
  assert (H2 : found gr.limit_re (render_anchored d segs last) = true
               \/ found gr.aggregate_re (render_anchored d segs last) = true).
  { unfold render_anchored.
    destruct (@some_stretch_or _ _ segs last Hcap) as [H | H]; [left | right].
    - apply (@found_in_stretch _ gr.limit_re (fun x => x) _ last
               (fun x y => eq_refl) eq_refl (fun x => eq_refl) (fun x => eq_refl) Hs').
      now apply some_stretch_map.
    - apply (@found_in_stretch _ gr.aggregate_re (fun x => x) _ last
               (fun x y => eq_refl) eq_refl (fun x => eq_refl) (fun x => eq_refl) Hs').
      now apply some_stretch_map. }
  (* no white space at the end *)
  assert (H3 : rstrip (render_anchored d segs last) = render_anchored d segs last).
  { apply rstrip_last_space. unfold render_anchored.
    rewrite (@last_space_render _ _ last (@anchor_block_end d) true Hs').
    rewrite <- (@last_space_render _ segs last temporal_block_end true Hs).
    now apply rstrip_last_space. }
  (* and nothing to anchor *)
  destruct (@quiet_no_patterns _ (@quiet_anchored d Hd segs last true Hs))
    as [N1 [N2 [N3 [N4 N5]]]].
  assert (H4 : gr.replace_current_date (render_anchored d segs last) (Some d) = None).
  { unfold gr.replace_current_date. destruct Hd as [Hne _].
    destruct d as [|c d']; [congruence|].
    unfold gr.apply_subs, gr.anchor_subs. cbv zeta. cbn [fold_left fst snd].
    rewrite (@sub_no_match _ _ _ N1), (@sub_no_match _ _ _ N2), (@sub_no_match _ _ _ N3),
      (@sub_no_match _ _ _ N4), (@sub_no_match _ _ _ N5).
    now rewrite text_eqb_refl. }
  assert (H5 : gr.ensure_store_filter (render_anchored d segs last) store_id
               = render_anchored d segs last).
  { unfold gr.ensure_store_filter. now rewrite H1. }
  assert (H6 : gr.ensure_limit (render_anchored d segs last) = render_anchored d segs last).
  { unfold gr.ensure_limit, gr.ensure_limit_with. rewrite H3.
    destruct (found gr.limit_re (render_anchored d segs last)); [reflexivity|].
    destruct H2 as [H2 | H2]; [discriminate | now rewrite H2]. }
  unfold qs.rewrite. cbv zeta. now rewrite H5, H6, H4.
Qed.

(** With an anchor date, the rewrite sequence puts the anchor in the place
    of every stand-alone temporal expression of the scoped and capped text,
    and a second pass changes nothing. *)
Lemma anchored_rewrite (s store_id : text) (segs : list (text * text)) (last : text) :
  gr.ensure_limit (gr.ensure_store_filter s store_id) = render segs last ->
  stands_alone segs last ->
  some_stretch (fun a => found gr.store_pred_re (lower a)) segs last ->
  some_stretch (fun a => found gr.limit_re a || found gr.aggregate_re a) segs last ->
  qs.rewrite s store_id (Some d) = render_anchored d segs last
  /\ qs.rewrite (qs.rewrite s store_id (Some d)) store_id (Some d)
     = qs.rewrite s store_id (Some d).
Proof.
  intros E Hs Hstore Hcap.
  assert (Hstrip : rstrip (render segs last) = render segs last)
    by (rewrite <- E; apply ensure_limit_stripped).
  assert (H1 : qs.rewrite s store_id (Some d) = render_anchored d segs last).
  { unfold qs.rewrite. cbv zeta. rewrite E. unfold gr.replace_current_date.
    pose proof Hd as [Hne _]. destruct d as [|c d'] eqn:Ed; [congruence|]. rewrite <- Ed in *.
    rewrite (@apply_subs_stretches d Hd segs last Hs).
    destruct (text_eqb (render_anchored d segs last) (render segs last)) eqn:Eq; cbn [negb].
    - apply text_eqb_true in Eq. now symmetry.
    - destruct (render_anchored d segs last) as [|x r] eqn:Er; [|reflexivity].
      cbn [gr.nonempty]. now apply render_anchored_nil in Er. }
  split; [exact H1|]. rewrite H1. now apply anchored_text_is_fixed.
Qed.


End Idempotence.

(** A text with two temporal expressions, as the rewrite sequence scopes
    and caps it. *)
Example anchored_rewrite_example :
  qs.rewrite (L "select current_date, NOW() from stores order by 1") (L "S001")
             (Some (L "2024-12-01"))
  = L "select '2024-12-01'::date, '2024-12-01'::timestamp from stores WHERE store_id = 'S001' order by 1 LIMIT 200"
  /\ qs.rewrite
       (qs.rewrite (L "select current_date, NOW() from stores order by 1") (L "S001")
                   (Some (L "2024-12-01")))
       (L "S001") (Some (L "2024-12-01"))
     = qs.rewrite (L "select current_date, NOW() from stores order by 1") (L "S001")
                  (Some (L "2024-12-01")).
Proof.
  assert (Hd : date_like (L "2024-12-01")) by (split; [discriminate | reflexivity]).
  destruct (@anchored_rewrite (L "2024-12-01") Hd
              (L "select current_date, NOW() from stores order by 1") (L "S001")
              [(L "select ", L "current_date"); (L ", ", L "NOW()")]
              (L " from stores WHERE store_id = 'S001' order by 1 LIMIT 200"))
    as [H1 H2].
  - vm_compute. reflexivity.
  - unfold stands_alone. cbn [stretches]. unfold quiet, temporal.
    repeat split; try (vm_compute; reflexivity); try (left; reflexivity);
      try (right; split; [discriminate | reflexivity]).
    + right. right. reflexivity.
    + right. reflexivity.
  - right. vm_compute. reflexivity.
  - right. vm_compute. reflexivity.
  - split; [rewrite H1; vm_compute; reflexivity | exact H2].
Qed.

